(** * signalwire-node, packages/common/src/webrtc/helpers.ts

  A shallow embedding of the layout geometry normalizer
  ([mutateCanvasInfoData]), the layout catalog merger ([mungeLayoutList]
  with [_layoutReducer] and [_layoutCompare]) and the media constraint
  resolver ([getMediaConstraints]), with the properties the specification
  states about them; and of the other functions of the file
  ([removeUnsupportedConstraints], [destructSubscribeResponse],
  [checkIsDirectCall], [destructConferenceState] and the functions that
  enable, disable and toggle the tracks of a media stream), with further
  properties read off the code.

  JavaScript numbers are IEEE 754 binary64 values: they are Rocq's primitive
  floats, so [/] and [*] below are the operations the program executes.
  Objects live in a store addressed by locations, because one of the
  functions writes into an object its caller owns. *)

From Stdlib Require Import Floats ZArith String Ascii DecimalString Sorted Permutation.
From stdpp Require Import gmap strings list.

(** ** The built-in operations the program relies on *)

Module Js.
Local Open Scope Z_scope.

(** *** Number::toString, radix 10 (ECMA-262, 6.1.6.1.20)

    A finite positive number is [m * 2^e] exactly.  The digits printed are
    the shortest decimal [s * 10^(n-k)] (with [k] digits) that the
    round-to-nearest-even conversion maps back to the number. *)

Definition pow2 (e : Z) : Z := 2 ^ Z.max e 0.
Definition pow10 (q : Z) : Z := 10 ^ Z.max q 0.

(** [m * 2^e ?= s * 10^q], by cross multiplication with positive powers. *)
Definition cmp_bin_dec (m e s q : Z) : comparison :=
  (m * pow2 e * pow10 (- q) ?= s * pow10 q * pow2 (- e)).

(** The least [n] from [n0] on with [m * 2^e < 10^n]. *)
Fixpoint magnitude (fuel : nat) (m e n : Z) : Z :=
  match fuel with
  | O => n
  | S fuel' =>
      match cmp_bin_dec m e 1 n with
      | Lt => n
      | _ => magnitude fuel' m e (n + 1)
      end
  end.

(** Does the decimal [s * 10^q] convert to the float [m * 2^e]?  The reals
    that round to it are those between the midpoints to its neighbours; a
    midpoint itself rounds to the float with the even mantissa.  Below a
    power of two the lower neighbour is half as far away. *)
Definition rounds_to (m e s q : Z) : bool :=
  let lo := if (m =? 2 ^ 52) && (-1074 <? e) then 4 * m - 1 else 4 * m - 2 in
  let hi := 4 * m + 2 in
  let even := Z.even m in
  match cmp_bin_dec lo (e - 2) s q, cmp_bin_dec hi (e - 2) s q with
  | Lt, Gt => true
  | Eq, _ => even
  | _, Eq => even
  | _, _ => false
  end.

(** The [k]-digit candidate for [m * 2^e] whose magnitude is [n], if one
    converts back: the decimal below and the one above are tried, the closer
    one first (the even one on a tie). *)
Definition candidate (m e n k : Z) : option Z :=
  let q := n - k in
  let s := (m * pow2 e * pow10 (- q)) / (pow10 q * pow2 (- e)) in
  let lower_first :=
    match cmp_bin_dec (2 * m) e (2 * s + 1) q with
    | Lt => true
    | Gt => false
    | Eq => Z.even s
    end in
  let c1 := if lower_first then s else s + 1 in
  let c2 := if lower_first then s + 1 else s in
  if rounds_to m e c1 q then Some c1
  else if rounds_to m e c2 q then Some c2
  else None.

(** The least [k] from [k0] on with a candidate, as [(s, k)]. *)
Fixpoint shortest (fuel : nat) (m e n k : Z) : Z * Z :=
  match fuel with
  | O => ((m * pow2 e * pow10 (k - n)) / (pow10 (n - k) * pow2 (- e)), k)
  | S fuel' =>
      match candidate m e n k with
      | Some s => (s, k)
      | None => shortest fuel' m e n (k + 1)
      end
  end.

Definition digits (s : Z) : string := NilZero.string_of_uint (N.to_uint (Z.to_N s)).

Fixpoint zeros (n : nat) : string :=
  match n with O => EmptyString | S n' => String "0" (zeros n') end.

(** Steps 7 to 11 of Number::toString for the digits [ds] of [s] ([k] of
    them) and the magnitude [n]. *)
Definition layout_digits (ds : string) (k n : Z) : string :=
  if (k <=? n) && (n <=? 21) then ds +:+ zeros (Z.to_nat (n - k))
  else if (0 <? n) && (n <=? 21) then
    substring 0 (Z.to_nat n) ds +:+ "." +:+ substring (Z.to_nat n) (Z.to_nat (k - n)) ds
  else if (-6 <? n) && (n <=? 0) then
    "0." +:+ zeros (Z.to_nat (- n)) +:+ ds
  else
    let ex := (if n - 1 <? 0 then "-" else "+") +:+ digits (Z.abs (n - 1)) in
    if k =? 1 then ds +:+ "e" +:+ ex
    else substring 0 1 ds +:+ "." +:+ substring 1 (Z.to_nat (k - 1)) ds +:+ "e" +:+ ex.

(** The search for the magnitude starts from the binary exponent:
    [2^l <= m * 2^e] gives [10^(n0 - 1) <= m * 2^e] for the [n0] below. *)
Definition positive_toString (m e : Z) : string :=
  let l := Z.log2 m + e in
  let n := magnitude 8 m e (l * 30103 / 100000 - 1) in
  let '(s, k) := shortest 17 m e n 1 in
  (* the decimal above 9...9 is 10^n: one digit, one magnitude up *)
  if s =? 10 ^ k then layout_digits "1" 1 (n + 1)
  else layout_digits (digits s) k n.

Definition Number_toString (x : float) : string :=
  match Prim2SF x with
  | S754_nan => "NaN"
  | S754_zero _ => "0"
  | S754_infinity false => "Infinity"
  | S754_infinity true => "-Infinity"
  | S754_finite false m e => positive_toString (Zpos m) e
  | S754_finite true m e => "-" +:+ positive_toString (Zpos m) e
  end.

End Js.

Module JsString.
Local Open Scope Z_scope.

(** *** Strings

    A string is a sequence of code units; the model has the code units
    below 256.  [toLowerCase] maps the upper-case letters among them (A-Z,
    and the Latin-1 letters from 192 to 222 except the multiplication sign
    215) to the letter 32 code units above. *)

Definition lower_unit (c : ascii) : ascii :=
  let n := N_of_ascii c in
  if ((65 <=? n) && (n <=? 90) || (192 <=? n) && (n <=? 222) && negb (n =? 215))%N
  then ascii_of_N (n + 32) else c.

Fixpoint toLowerCase (s : string) : string :=
  match s with
  | EmptyString => EmptyString
  | String c s' => String (lower_unit c) (toLowerCase s')
  end.

(** [s.replace(/[-_]/g, ' ')]: every hyphen and every underscore becomes a
    space. *)
Fixpoint replace_dash_underscore (s : string) : string :=
  match s with
  | EmptyString => EmptyString
  | String c s' =>
      String (if (Ascii.eqb c "-" || Ascii.eqb c "_")%bool then " "%char else c)
             (replace_dash_underscore s')
  end.

(** [a > b] and [a < b] on strings: the lexicographic order of the code
    units. *)
Definition gt (a b : string) : bool :=
  match String.compare a b with Gt => true | _ => false end.
Definition lt (a b : string) : bool :=
  match String.compare a b with Lt => true | _ => false end.

(** A string is truthy unless it is empty. *)
Definition truthy (s : string) : bool :=
  match s with EmptyString => false | _ => true end.

End JsString.

Module JsValue.

(** *** Primitive values *)

Inductive value :=
| Undefined
| Null
| Bool (b : bool)
| Number (n : float)
| Str (s : string).

(** [String(v)] *)
Definition String_ (v : value) : string :=
  match v with
  | Undefined => "undefined"
  | Null => "null"
  | Bool true => "true"
  | Bool false => "false"
  | Number n => Js.Number_toString n
  | Str s => s
  end.

(** [v === w]: the same type and the same value; numbers compare as IEEE
    754 does (NaN differs from itself, the two zeros are equal). *)
Definition strict_equal (v w : value) : bool :=
  match v, w with
  | Undefined, Undefined => true
  | Null, Null => true
  | Bool a, Bool b => Bool.eqb a b
  | Number a, Number b => PrimFloat.eqb a b
  | Str a, Str b => String.eqb a b
  | _, _ => false
  end.

End JsValue.
Export JsValue.

(** ** Array.prototype.sort with a comparison function

  The sort is stable (ECMA-262 since 2019) and puts [a] after [b] when
  [comparefn a b > 0].  With a consistent comparison function the result is
  determined; insertion from the right computes it. *)

Section Sort.
Context {A : Type} (comparefn : A → A → Z).

Fixpoint sort_insert (a : A) (l : list A) : list A :=
  match l with
  | [] => [a]
  | b :: l' => if (0 <? comparefn a b)%Z then b :: sort_insert a l' else a :: b :: l'
  end.

Fixpoint sort (l : list A) : list A :=
  match l with
  | [] => []
  | a :: l' => sort_insert a (sort l')
  end.
End Sort.

(** ** util/helpers.ts *)

(** Modelled from the spec: the last step of [roundToFixed] below, the
    number nearest to [± r / 100] for an integer [r >= 0]: the quotient of
    the two integers, both exact, rounded once as IEEE 754 division rounds. *)
Definition hundredth (sgn : bool) (r : Z) : float :=
  match r with
  | Zpos p => SF2Prim (SFdiv prec emax (S754_finite sgn p 0) (S754_finite false 100 0))
  | _ => if sgn then (-0)%float else 0%float
  end.

(** Modelled from the spec: [roundToFixed] is imported from [../util/helpers],
  which is not among the sources.  The specification (4.1) has it round "to
  2 decimal places using standard round-half-away-from-zero on the computed
  percentage", exactly and deterministically.  For a finite [value = ± m *
  2^e] the integer [r] nearest to [m * 2^e * 100] is computed exactly (a
  half goes upwards, which is away from zero once the sign is put back), and the result is the number nearest to [± r / 100],
  whatever the magnitude; a number that is an integer already, a zero, an
  infinity and NaN are returned as they are, the specification saying
  nothing else about them. *)
Definition roundToFixed (value : float) : float :=
match Prim2SF value with
| S754_finite sgn m e =>
    if (0 <=? e)%Z then value
    else hundredth sgn ((2 * (Zpos m * 100) + 2 ^ (- e)) / (2 * 2 ^ (- e)))%Z
| _ => value
end.

(** ** webrtc/interfaces.ts and webrtc/constants.ts

    An object is a cell of the store and is referred to by its location: two
    references to one object are the same location. *)

Abbreviation loc := nat (only parsing).

(** Modelled from the spec: the declaration of [DeviceType] (constants.ts) is
    not among the sources; the code names [AudioIn] and [Video], the
    specification (4.3) the kinds of device. *)
Inductive DeviceType := AudioIn | AudioOut | Video.

(** Modelled from the spec: the interfaces are declared in interfaces.ts,
    which is not among the sources.  The fields are the ones the code reads
    and the data model of the specification (3) lists; [others] holds the
    further properties of an object, those with other names than the
    fields before it, which the code copies with a rest spread; their
    values are primitive.  A field of type [value] that is [Undefined]
    stands for a property that is [undefined]; the records do not tell a
    property that is absent from one that is there and [undefined]. *)
Module IVertoCanvasLayout.
Record t := mk {
  memberID : value; audioPOS : value; xPOS : value; yPOS : value;
  x : float; y : float; scale : float; hscale : float;
  overlap : value;
  others : gmap string value }.
End IVertoCanvasLayout.

(** An object of the interface ICanvasLayout is held as its properties, by
    name: a property of the raw layout that the rest spread copies may have
    any name, also that of a property the function computes. *)
Abbreviation ICanvasLayout := (gmap string value) (only parsing).

Module IVertoCanvasInfo.
Record t := mk {
  canvasID : value; layoutFloorID : value;
  scale : float;
  canvasLayouts : loc;
  others : gmap string value }.
End IVertoCanvasInfo.

Module ICanvasInfo.
Record t := mk {
  canvasId : value; layoutFloorId : value;
  scale : float;
  canvasLayouts : loc;
  layoutOverlap : bool;
  others : gmap string value }.
End ICanvasInfo.

(** A field that may be absent ([displayName?], [micId?]) is an option:
    [None] is [undefined]. *)
Module IVertoLayout.
Record t := mk {
  type : value;
  name : string;
  displayName : option string;
  resIDS : option (list string);
  groupLayouts : option (list string) }.
End IVertoLayout.

Module ILayout.
Record t := mk {
  id : string;
  label : string;
  type : value;
  reservationIds : list string;
  belongsToAGroup : bool }.
End ILayout.

(** [audio] and [video] are a boolean or (a reference to) a
    MediaTrackConstraints object. *)
Module CallOptions.
Record t := mk {
  audio : option (bool + loc);
  micId : option string;
  micLabel : option string;
  video : option (bool + loc);
  camId : option string;
  camLabel : option string }.
End CallOptions.

Module MediaStreamConstraints.
Record t := mk { audio : bool + loc; video : bool + loc }.
End MediaStreamConstraints.

(** A property of a MediaTrackConstraints object: a primitive value, or the
    object [{ exact: id }]. *)
Inductive constraint :=
| Plain (v : value)
| Exact (id : string).

Inductive cell :=
| VertoCanvasInfo (c : IVertoCanvasInfo.t)
| VertoCanvasLayout (l : IVertoCanvasLayout.t)
| CanvasInfo (c : ICanvasInfo.t)
| CanvasLayout (l : ICanvasLayout)
| Array (a : list loc)
| Options (o : CallOptions.t)
| TrackConstraints (m : gmap string constraint)
| StreamConstraints (s : MediaStreamConstraints.t).

(** ** Programs: a store of objects, the log of the device resolutions
    asked for, and completions that are normal or abrupt *)

Record state := mkState {
  heap : list cell;
  resolutions : list (string * string * DeviceType) }.

(** The engine raises a TypeError where a value is not of the kind an
    operation needs (a property of [undefined] is read). *)
Inductive error := TypeError.

Inductive completion (A : Type) :=
| Normal (a : A)
| Throw (e : error).
Arguments Normal {A} a.
Arguments Throw {A} e.

Definition M (A : Type) : Type := state → completion A * state.

#[global] Instance M_ret : MRet M := λ A a σ, (Normal a, σ).
#[global] Instance M_bind : MBind M := λ A B k m σ,
  match m σ with
  | (Normal a, σ') => k a σ'
  | (Throw e, σ') => (Throw e, σ')
  end.

Definition throw {A} (e : error) : M A := λ σ, (Throw e, σ).

(** A new object. *)
Definition alloc (c : cell) : M loc := λ σ,
  (Normal (length (heap σ)), mkState (heap σ ++ [c]) (resolutions σ)).

Definition load (l : loc) : M cell := λ σ,
  match heap σ !! l with
  | Some c => (Normal c, σ)
  | None => (Throw TypeError, σ)
  end.

Definition store (l : loc) (c : cell) : M unit := λ σ,
  (Normal tt, mkState (<[l := c]> (heap σ)) (resolutions σ)).

Definition as_VertoCanvasInfo (c : cell) : option IVertoCanvasInfo.t :=
  match c with VertoCanvasInfo o => Some o | _ => None end.
Definition as_VertoCanvasLayout (c : cell) : option IVertoCanvasLayout.t :=
  match c with VertoCanvasLayout o => Some o | _ => None end.
Definition as_Array (c : cell) : option (list loc) :=
  match c with Array a => Some a | _ => None end.
Definition as_Options (c : cell) : option CallOptions.t :=
  match c with Options o => Some o | _ => None end.
Definition as_TrackConstraints (c : cell) : option (gmap string constraint) :=
  match c with TrackConstraints m => Some m | _ => None end.

(** The object at [l], read as an object of one interface. *)
Definition load_as {A} (view : cell → option A) (l : loc) : M A :=
  c ← load l;
  match view c with
  | Some a => mret a
  | None => throw TypeError
  end.

(** [array.push(o)] *)
Definition push (array : loc) (o : loc) : M unit :=
  a ← load_as as_Array array;
  store array (Array (a ++ [o])).

(** ** webrtc/helpers.ts: mutateCanvasInfoData *)

(** The template literal [`${roundToFixed(v)}%`] *)
Definition percent (v : float) : string := Js.Number_toString (roundToFixed v) +:+ "%".

(** [rest] of line 113: the properties of the layout without [memberID],
    [audioPOS], [xPOS] and [yPOS], that is [x], [y], [scale], [hscale],
    [overlap] and the further ones. *)
Definition layout_rest (layout : IVertoCanvasLayout.t) : gmap string value :=
  <["x" := Number (IVertoCanvasLayout.x layout)]>
  (<["y" := Number (IVertoCanvasLayout.y layout)]>
  (<["scale" := Number (IVertoCanvasLayout.scale layout)]>
  (<["hscale" := Number (IVertoCanvasLayout.hscale layout)]>
  (<["overlap" := IVertoCanvasLayout.overlap layout]>
  (delete "memberID" (delete "audioPOS" (delete "xPOS" (delete "yPOS"
     (IVertoCanvasLayout.others layout))))))))).

(** The object literal pushed for one layout (lines 115-125).  The rest
    spread is its last member, and a later member replaces an earlier one of
    the same name: the union takes a property from the rest where the rest
    has it, and from the eight members before it otherwise. *)
Definition canvasLayout (scale : float) (layout : IVertoCanvasLayout.t) : ICanvasLayout :=
  layout_rest layout ∪
  list_to_map [
    ("startX", Str (percent ((IVertoCanvasLayout.x layout / scale) * 100)%float));
    ("startY", Str (percent ((IVertoCanvasLayout.y layout / scale) * 100)%float));
    ("percentageWidth",
       Str (percent ((IVertoCanvasLayout.scale layout / scale) * 100)%float));
    ("percentageHeight",
       Str (percent ((IVertoCanvasLayout.hscale layout / scale) * 100)%float));
    ("participantId", Str (String_ (IVertoCanvasLayout.memberID layout)));
    ("audioPos", IVertoCanvasLayout.audioPOS layout);
    ("xPos", IVertoCanvasLayout.xPOS layout);
    ("yPos", IVertoCanvasLayout.yPOS layout) ].

(** The loop of lines 111-126, as a recursion over the elements of
    [canvasLayouts] that are still to come.  The body writes to the new
    array [layouts] only, so the elements and the length of [canvasLayouts]
    are the ones read before the loop. *)
Fixpoint for_canvasLayouts (scale : float) (layouts : loc) (canvasLayouts : list loc)
    (layoutOverlap : bool) : M bool :=
  match canvasLayouts with
  | [] => mret layoutOverlap
  | i :: more =>
      layout ← load_as as_VertoCanvasLayout i;
      let layoutOverlap :=
        layoutOverlap || strict_equal (IVertoCanvasLayout.overlap layout) (Number 1) in
      o ← alloc (CanvasLayout (canvasLayout scale layout));
      push layouts o;;
      for_canvasLayouts scale layouts more layoutOverlap
  end.

(** [rest] of line 108 as the literal of lines 127-134 keeps it: the
    properties of the canvas without [canvasID], [layoutFloorID], [scale]
    and [canvasLayouts], and without those the literal writes after the
    spread, which replace a property of the same name. *)
Definition canvas_rest (canvasInfo : IVertoCanvasInfo.t) : gmap string value :=
  delete "canvasId" (delete "layoutFloorId" (delete "layoutOverlap"
  (delete "canvasID" (delete "layoutFloorID" (delete "scale" (delete "canvasLayouts"
     (IVertoCanvasInfo.others canvasInfo))))))).

Definition mutateCanvasInfoData (canvasInfo : loc) : M loc :=
  ci ← load_as as_VertoCanvasInfo canvasInfo;
  let scale := IVertoCanvasInfo.scale ci in
  layouts ← alloc (Array []);
  canvasLayouts ← load_as as_Array (IVertoCanvasInfo.canvasLayouts ci);
  layoutOverlap ← for_canvasLayouts scale layouts canvasLayouts false;
  alloc (CanvasInfo
    {| ICanvasInfo.others := canvas_rest ci;
       ICanvasInfo.canvasId := IVertoCanvasInfo.canvasID ci;
       ICanvasInfo.layoutFloorId := IVertoCanvasInfo.layoutFloorID ci;
       ICanvasInfo.scale := scale;
       ICanvasInfo.canvasLayouts := layouts;
       ICanvasInfo.layoutOverlap := layoutOverlap |}).

(** ** webrtc/helpers.ts: getMediaConstraints *)

Section GetMediaConstraints.

(** [assureDeviceId] (deviceHelpers.ts) is the external resolver: it is
    given a device id, a label and a kind, and its promise resolves to a
    device id ([Some]) or rejects ([None]). *)
Variable assureDeviceId : string → string → DeviceType → option string.

(** [await assureDeviceId(id, label, kind).catch(error => null)]: the call is
    logged; a rejection becomes [null]. *)
Definition await_assureDeviceId (id label : string) (kind : DeviceType) : M (option string) := λ σ,
  (Normal (assureDeviceId id label kind),
   mkState (heap σ) (resolutions σ ++ [(id, label, kind)])).

(** [if (typeof track === 'boolean') { track = {} }] *)
Definition object_if_boolean (track : bool + loc) : M loc :=
  match track with
  | inl _ => alloc (TrackConstraints ∅)
  | inr l => mret l
  end.

(** [track.deviceId = { exact: id }] *)
Definition set_deviceId (track : loc) (id : string) : M unit :=
  m ← load_as as_TrackConstraints track;
  store track (TrackConstraints (<["deviceId" := Exact id]> m)).

Definition getMediaConstraints (options : loc) : M loc :=
  o ← load_as as_Options options;
  let audio := default (inl true) (CallOptions.audio o) in
  let micId := CallOptions.micId o in
  let micLabel := default "" (CallOptions.micLabel o) in
  audio ←
    match micId with
    | Some micId =>
        if JsString.truthy micId then
          micId ← await_assureDeviceId micId micLabel AudioIn;
          match micId with
          | Some micId =>
              if JsString.truthy micId then
                audio ← object_if_boolean audio;
                set_deviceId audio micId;;
                mret (inr audio)
              else mret audio
          | None => mret audio
          end
        else mret audio
    | None => mret audio
    end;
  o ← load_as as_Options options;
  let video := default (inl false) (CallOptions.video o) in
  let camId := CallOptions.camId o in
  let camLabel := default "" (CallOptions.camLabel o) in
  video ←
    match camId with
    | Some camId =>
        if JsString.truthy camId then
          camId ← await_assureDeviceId camId camLabel Video;
          match camId with
          | Some camId =>
              if JsString.truthy camId then
                video ← object_if_boolean video;
                set_deviceId video camId;;
                mret (inr video)
              else mret video
          | None => mret video
          end
        else mret video
    | None => mret video
    end;
  alloc (StreamConstraints
    {| MediaStreamConstraints.audio := audio; MediaStreamConstraints.video := video |}).

End GetMediaConstraints.

(** ** webrtc/helpers.ts: the layout catalog *)

Definition _layoutReducer (result : list ILayout.t) (layout : IVertoLayout.t) : list ILayout.t :=
  let type := IVertoLayout.type layout in
  let name := IVertoLayout.name layout in
  let displayName := IVertoLayout.displayName layout in
  let resIDS := default [] (IVertoLayout.resIDS layout) in
  let label :=
    match displayName with
    | Some d => if JsString.truthy d then d else JsString.replace_dash_underscore name
    | None => JsString.replace_dash_underscore name
    end in
  result ++ [ {| ILayout.id := name; ILayout.label := label; ILayout.type := type;
                 ILayout.reservationIds := resIDS; ILayout.belongsToAGroup := false |} ].

Definition _layoutCompare (prev next : ILayout.t) : Z :=
  let prevLabel := JsString.toLowerCase (ILayout.label prev) in
  let nextLabel := JsString.toLowerCase (ILayout.label next) in
  if JsString.gt prevLabel nextLabel then 1%Z
  else if JsString.lt prevLabel nextLabel then (-1)%Z
  else 0%Z.

(** [array.includes(s)] for an array of strings. *)
Definition includes (array : list string) (s : string) : bool :=
  existsb (String.eqb s) array.

(** [layout.belongsToAGroup = b], on an object made by [_layoutReducer]. *)
Definition set_belongsToAGroup (b : bool) (layout : ILayout.t) : ILayout.t :=
  {| ILayout.id := ILayout.id layout; ILayout.label := ILayout.label layout;
     ILayout.type := ILayout.type layout;
     ILayout.reservationIds := ILayout.reservationIds layout;
     ILayout.belongsToAGroup := b |}.

(** The three constants of [mungeLayoutList] (lines 207-215). *)
Definition layoutsPartOfGroup (layoutGroups : list IVertoLayout.t) : list string :=
  fold_left (λ cumulative layout, cumulative ++ default [] (IVertoLayout.groupLayouts layout))
            layoutGroups [].

Definition normalList (layouts layoutGroups : list IVertoLayout.t) : list ILayout.t :=
  let normalList := fold_left _layoutReducer layouts [] in
  map (λ layout,
         set_belongsToAGroup (includes (layoutsPartOfGroup layoutGroups) (ILayout.id layout)) layout)
      normalList.

Definition groupList (layoutGroups : list IVertoLayout.t) : list ILayout.t :=
  fold_left _layoutReducer layoutGroups [].

Definition mungeLayoutList (layouts layoutGroups : list IVertoLayout.t) : list ILayout.t :=
  sort _layoutCompare (groupList layoutGroups ++ normalList layouts layoutGroups).

(** ** Payloads of the signaling layer

    What a parameter typed [any] holds: a primitive value or an object; a
    field of such an object is a primitive value, an array of strings or an
    object of primitive values. *)

Inductive field :=
| FPrim (v : value)
| FStrings (a : list string)
| FObject (o : gmap string value).

Inductive payload :=
| PPrim (v : value)
| PObject (o : gmap string field).

Module JsCoerce.

(** [Boolean(v)] *)
Definition truthy (v : value) : bool :=
  match v with
  | Undefined | Null => false
  | Bool b => b
  | Number n => negb (PrimFloat.eqb n 0) && PrimFloat.eqb n n
  | Str s => JsString.truthy s
  end.

(** An array and an object are truthy. *)
Definition Boolean_ (x : field) : bool :=
  match x with
  | FPrim v => truthy v
  | FStrings _ | FObject _ => true
  end.

(** [array.join(",")], the string form of an array of strings. *)
Fixpoint join (a : list string) : string :=
  match a with
  | [] => ""
  | [s] => s
  | s :: a' => s +:+ "," +:+ join a'
  end.

(** The string a template literal makes of a field. *)
Definition ToString (x : field) : string :=
  match x with
  | FPrim v => String_ v
  | FStrings a => join a
  | FObject _ => "[object Object]"
  end.

(** [x === w] for a primitive [w]: an array or an object is no primitive. *)
Definition strict_equal_prim (x : field) (w : value) : bool :=
  match x with
  | FPrim v => strict_equal v w
  | _ => false
  end.

(** [x || y] *)
Definition or_else (x y : field) : field := if Boolean_ x then x else y.

End JsCoerce.

(** [p[key]]: reading a property of [undefined] or [null] is a TypeError; a
    primitive value has none of the properties read here, an object has
    [undefined] for a key it lacks. *)
Definition property (p : payload) (key : string) : completion field :=
  match p with
  | PPrim (Undefined | Null) => Throw TypeError
  | PPrim _ => Normal (FPrim Undefined)
  | PObject o => Normal (default (FPrim Undefined) (o !! key))
  end.

(** [x[key]] for a field [x] of a payload (no key read is an index or
    [length]). *)
Definition field_property (x : field) (key : string) : completion value :=
  match x with
  | FPrim (Undefined | Null) => Throw TypeError
  | FPrim _ | FStrings _ => Normal Undefined
  | FObject o => Normal (default Undefined (o !! key))
  end.

(** Completions without a store. *)
#[global] Instance completion_ret : MRet completion := λ A a, Normal a.
#[global] Instance completion_bind : MBind completion := λ A B k c,
  match c with
  | Normal a => k a
  | Throw e => Throw e
  end.
#[global] Instance completion_fmap : FMap completion := λ A B f c,
  match c with
  | Normal a => Normal (f a)
  | Throw e => Throw e
  end.

(** The properties of an object literal, evaluated in their order. *)
Fixpoint object_literal {A} (properties : list (string * completion A)) :
    completion (list (string * A)) :=
  match properties with
  | [] => Normal []
  | (key, c) :: more =>
      a ← c;
      rest ← object_literal more;
      Normal ((key, a) :: rest)
  end.

(** ** webrtc/helpers.ts: removeUnsupportedConstraints *)

Section RemoveUnsupportedConstraints.

(** The keys of the object [WebRTC.getSupportedConstraints()] returns
    (util/webrtc.ts hands the question to the browser). *)
Variable supported : gset string.

(** [c === null] and [c === undefined] for the value of a property. *)
Definition is_null (c : constraint) : bool :=
  match c with Plain Null => true | _ => false end.
Definition is_undefined (c : constraint) : bool :=
  match c with Plain Undefined => true | _ => false end.

(** The callback of line 24 for one key. *)
Definition remove_if_unsupported (constraints : loc) (key : string) : M unit :=
  m ← load_as as_TrackConstraints constraints;
  let at_key := default (Plain Undefined) (m !! key) in
  if negb (bool_decide (key ∈ supported)) || is_null at_key || is_undefined at_key
  then store constraints (TrackConstraints (delete key m))
  else mret tt.

(** [array.map(f)] and [array.forEach(f)] for a callback whose result is not
    used. *)
Fixpoint for_each {A} (f : A → M unit) (array : list A) : M unit :=
  match array with
  | [] => mret tt
  | a :: more => f a;; for_each f more
  end.

Definition removeUnsupportedConstraints (constraints : loc) : M unit :=
  m ← load_as as_TrackConstraints constraints;
  let keys := (map_to_list m).*1 in
  for_each (remove_if_unsupported constraints) keys.

End RemoveUnsupportedConstraints.

(** ** webrtc/helpers.ts: destructSubscribeResponse *)

Definition destructSubscribeResponse (response : payload) : completion (gmap string field) :=
  let tmp : gmap string field :=
    list_to_map [("subscribed", FStrings []); ("alreadySubscribed", FStrings []);
                 ("unauthorized", FStrings []); ("unsubscribed", FStrings []);
                 ("notSubscribed", FStrings [])] in
  let keys := ["subscribed"; "alreadySubscribed"; "unauthorized"; "unsubscribed";
               "notSubscribed"] in
  fold_left (λ (done : completion (gmap string field)) k,
               tmp ← done;
               channels ← property response (k +:+ "Channels");
               mret (<[k := JsCoerce.or_else channels (FStrings [])]> tmp))
            keys (mret tmp).

(** ** webrtc/helpers.ts: checkIsDirectCall *)

(** [typeof x] *)
Definition typeof (x : field) : string :=
  match x with
  | FPrim Undefined => "undefined"
  | FPrim Null => "object"
  | FPrim (Bool _) => "boolean"
  | FPrim (Number _) => "number"
  | FPrim (Str _) => "string"
  | FStrings _ | FObject _ => "object"
  end.

(** [key in x], for a key that is no index and not [length]: a TypeError
    unless [x] is an object. *)
Definition has_property (key : string) (x : field) : completion bool :=
  match x with
  | FPrim _ => Throw TypeError
  | FStrings _ => Normal false
  | FObject o => Normal (bool_decide (is_Some (o !! key)))
  end.

Definition checkIsDirectCall (params : payload) : completion bool :=
  variables ← property params "variables";
  if String.eqb (typeof variables) "object"
  then has_property "verto_svar_direct_call" variables
  else mret false.

(** ** webrtc/helpers.ts: destructConferenceState *)

Section DestructConferenceState.

(** The number a string stands for ([StringToNumber], ECMA-262 7.1.4.1.1). *)
Variable StringToNumber : string → float.

(** [Number(x)] *)
Definition Number_ (x : field) : float :=
  match x with
  | FPrim Undefined => nan
  | FPrim Null => 0
  | FPrim (Bool b) => if b then 1 else 0
  | FPrim (Number n) => n
  | FPrim (Str s) => StringToNumber s
  | FStrings a => StringToNumber (JsCoerce.join a)
  | FObject _ => nan
  end%float.

(** [Number(x) || y] *)
Definition Number_or (x : field) (y : value) : field :=
  FPrim (if JsCoerce.truthy (Number (Number_ x)) then Number (Number_ x) else y).

(** [Boolean(x)] as a field. *)
Definition Boolean_field (x : field) : field := FPrim (Bool (JsCoerce.Boolean_ x)).

(** [v === w] as a field. *)
Definition equals (w : value) (v : value) : field := FPrim (Bool (strict_equal v w)).

(** [v || w] on primitive values, as a field. *)
Definition value_or (w : value) (v : value) : field :=
  FPrim (if JsCoerce.truthy v then v else w).

(** A destructured field with the default [{}]. *)
Definition or_empty_object (x : field) : field :=
  match x with
  | FPrim Undefined => FObject ∅
  | _ => x
  end.

Definition destructConferenceState (confState : payload) : completion (gmap string field) :=
  variables ← or_empty_object <$> property confState "variables";
  flags ← or_empty_object <$> property confState "flags";
  md5 ← property confState "md5";
  domain ← property confState "domain";
  let suffix := JsCoerce.ToString md5 +:+ "@" +:+ JsCoerce.ToString domain in
  list_to_map <$> object_literal [
    ("uuid", property confState "uuid");
    ("md5", property confState "md5");
    ("domain", property confState "domain");
    ("running", Boolean_field <$> property confState "running");
    ("laChannel", mret (FPrim (Str ("conference-liveArray." +:+ suffix))));
    ("infoChannel", mret (FPrim (Str ("conference-info." +:+ suffix))));
    ("modChannel", mret (FPrim (Str ("conference-mod." +:+ suffix))));
    ("confName", property confState "name");
    ("numMembers", (λ x, Number_or x (Number 0)) <$> property confState "members");
    ("isPrivate", equals (Str "true") <$> field_property variables "is_private");
    ("mohPlaying", Boolean_field <$> property confState "mohPlaying");
    ("filesPlaying", Boolean_field <$> property confState "filesPlaying");
    ("filesPlayingName",
       (λ x, JsCoerce.or_else x (FPrim Null)) <$> property confState "filesPlayingName");
    ("asyncFilesPlaying", Boolean_field <$> property confState "asyncFilesPlaying");
    ("asyncFilesPlayingName",
       (λ x, JsCoerce.or_else x (FPrim Null)) <$> property confState "asyncFilesPlayingName");
    ("asyncFilesPlayingPaused",
       Boolean_field <$> property confState "asyncFilesPlayingPaused");
    ("asyncFilesPlayingVolume",
       (λ x, Number_or x Null) <$> property confState "asyncFilesPlayingVolume");
    ("filesSeekable", Boolean_field <$> property confState "filesSeekable");
    ("asyncFilesSeekable", Boolean_field <$> property confState "asyncFilesSeekable");
    ("performerDelay", property confState "performerDelay");
    ("volAudience", property confState "vol-audience");
    ("filesFullScreen", Boolean_field <$> property confState "filesFullScreen");
    ("silentMode", value_or (Bool false) <$> field_property flags "silent-mode");
    ("meetingMode", value_or (Bool false) <$> field_property flags "meeting-mode");
    ("vidMuteHide", value_or (Bool false) <$> field_property flags "vid-mute-hide");
    ("personalCanvas",
       (λ v, Boolean_field (FPrim v)) <$> field_property flags "personalCanvas");
    ("personalCanvasTP", value_or Null <$> field_property flags "personalCanvasTP");
    ("locked", (λ v, Boolean_field (FPrim v)) <$> field_property flags "locked");
    ("recording", (λ v, Boolean_field (FPrim v)) <$> field_property flags "recording");
    ("liveMusic", (λ v, Boolean_field (FPrim v)) <$> field_property flags "liveMusic");
    ("publicClipeeze", equals (Str "true") <$> field_property variables "public_clipeeze");
    ("confQuality", FPrim <$> field_property variables "conf_quality");
    ("accessPin", value_or Null <$> field_property variables "access_pin");
    ("moderatorPin", value_or Null <$> field_property variables "moderator_pin");
    ("speakerHighlight",
       equals (Str "true") <$> field_property variables "speaker_highlight");
    ("disableIntercom", equals (Bool true) <$> field_property variables "disable_intercom");
    ("lastLayoutGroup", FPrim <$> field_property variables "lastLayoutGroup");
    ("lastLayout", FPrim <$> field_property variables "lastLayout")
  ].

End DestructConferenceState.

(** ** webrtc/helpers.ts: the tracks of a media stream *)

(** A MediaStreamTrack, with the two properties the code uses.  Tracks are
    objects of a store of their own; a MediaStream is the list of its
    tracks, and [None] stands for [null] and [undefined]. *)
Module MediaStreamTrack.
Record t := mk { kind : string; enabled : bool }.
End MediaStreamTrack.

Definition T (A : Type) : Type :=
  list MediaStreamTrack.t → completion A * list MediaStreamTrack.t.

#[global] Instance T_ret : MRet T := λ A a h, (Normal a, h).
#[global] Instance T_bind : MBind T := λ A B k m h,
  match m h with
  | (Normal a, h') => k a h'
  | (Throw e, h') => (Throw e, h')
  end.

(** [array.forEach(f)] *)
Fixpoint forEach {A} (f : A → T unit) (array : list A) : T unit :=
  match array with
  | [] => mret tt
  | a :: more => f a;; forEach f more
  end.

(** [stream.getTracks()] restricted to one kind: [getAudioTracks()] and
    [getVideoTracks()]. *)
Definition tracks_of_kind (kind : string) (stream : list loc) : T (list loc) := λ h,
  (Normal (filter (λ track, MediaStreamTrack.kind <$> h !! track = Some kind) stream), h).

Section UpdateMediaStreamTracks.

(** [WebRTC.streamIsValid] (util/webrtc.ts). *)
Variable streamIsValid : option (list loc) → bool.

(** [_updateTrack] (lines 77-89), for the [enabled] of the enclosing call:
    [true], [false] or, as [None], anything else. *)
Definition _updateTrack (enabled : option bool) (track : loc) : T unit := λ h,
  match h !! track with
  | Some t =>
      let enabled' :=
        match enabled with
        | Some true => true
        | Some false => false
        | None => negb (MediaStreamTrack.enabled t)
        end in
      (Normal tt,
       <[track := {| MediaStreamTrack.kind := MediaStreamTrack.kind t;
                     MediaStreamTrack.enabled := enabled' |}]> h)
  | None => (Throw TypeError, h)
  end.

(** The result is [null] for a stream that is not valid and [undefined],
    what [forEach] returns, otherwise. *)
Definition _updateMediaStreamTracks (stream : option (list loc)) (kind : option string)
    (enabled : option bool) : T value :=
  if negb (streamIsValid stream) then mret Null
  else
    match stream with
    | None => λ h, (Throw TypeError, h)
    | Some tracks =>
        match kind with
        | Some "audio" =>
            audio ← tracks_of_kind "audio" tracks;
            forEach (_updateTrack enabled) audio;; mret Undefined
        | Some "video" =>
            video ← tracks_of_kind "video" tracks;
            forEach (_updateTrack enabled) video;; mret Undefined
        | _ => forEach (_updateTrack enabled) tracks;; mret Undefined
        end
    end.

Definition enableAudioTracks (stream : option (list loc)) : T value :=
  _updateMediaStreamTracks stream (Some "audio") (Some true).
Definition disableAudioTracks (stream : option (list loc)) : T value :=
  _updateMediaStreamTracks stream (Some "audio") (Some false).
Definition toggleAudioTracks (stream : option (list loc)) : T value :=
  _updateMediaStreamTracks stream (Some "audio") None.
Definition enableVideoTracks (stream : option (list loc)) : T value :=
  _updateMediaStreamTracks stream (Some "video") (Some true).
Definition disableVideoTracks (stream : option (list loc)) : T value :=
  _updateMediaStreamTracks stream (Some "video") (Some false).
Definition toggleVideoTracks (stream : option (list loc)) : T value :=
  _updateMediaStreamTracks stream (Some "video") None.

End UpdateMediaStreamTracks.

(** * Specification vocabulary *)

(** The store holds the canvas [ci] at [canvasInfo]; its [canvasLayouts]
    array has the locations [ls], at which the layouts [Ls] are. *)
Definition holds_canvas (σ : state) (canvasInfo : loc) (ci : IVertoCanvasInfo.t)
    (ls : list loc) (Ls : list IVertoCanvasLayout.t) : Prop :=
  heap σ !! canvasInfo = Some (VertoCanvasInfo ci) ∧
  heap σ !! IVertoCanvasInfo.canvasLayouts ci = Some (Array ls) ∧
  Forall2 (λ l L, heap σ !! l = Some (VertoCanvasLayout L)) ls Ls.

(** [layout.overlap === 1] *)
Definition overlaps (L : IVertoCanvasLayout.t) : bool :=
  strict_equal (IVertoCanvasLayout.overlap L) (Number 1).

(** The canvas object returned for [ci], with its array at [layouts]. *)
Definition canvasInfo_of (ci : IVertoCanvasInfo.t) (layouts : loc) (layoutOverlap : bool) :
    ICanvasInfo.t :=
  {| ICanvasInfo.others := canvas_rest ci;
     ICanvasInfo.canvasId := IVertoCanvasInfo.canvasID ci;
     ICanvasInfo.layoutFloorId := IVertoCanvasInfo.layoutFloorID ci;
     ICanvasInfo.scale := IVertoCanvasInfo.scale ci;
     ICanvasInfo.canvasLayouts := layouts;
     ICanvasInfo.layoutOverlap := layoutOverlap |}.

(** A number that is finite and above zero. *)
Definition finite_positive (s : float) : Prop :=
  is_finite s = true ∧ (0 <? s)%float = true.

(** A number that is NaN or an infinity. *)
Definition nan_or_infinite (q : float) : Prop :=
  q = nan ∨ q = infinity ∨ q = neg_infinity.

(** Every object of [σ] is the same object, unchanged, in [σ']. *)
Definition objects_unchanged (σ σ' : state) : Prop :=
  ∀ l c, heap σ !! l = Some c → heap σ' !! l = Some c.

(** [l] is no object of [σ]: an object made later. *)
Definition new_in (σ : state) (l : loc) : Prop := length (heap σ) ≤ l.

(** [take n] of the store is kept, the store does not shrink and the log of
    resolutions is kept. *)
Definition preserves (n : nat) (σ σ' : state) : Prop :=
  take n (heap σ') = take n (heap σ) ∧
  length (heap σ) ≤ length (heap σ') ∧
  resolutions σ' = resolutions σ.

Definition frame {A} (n : nat) (m : M A) : Prop :=
  ∀ σ, n ≤ length (heap σ) → preserves n σ (m σ).2.

(** *** Example inputs *)

(** A raw layout at [(x, y)] with the sizes [(scale, hscale)]. *)
Definition raw_layout (memberID : value) (x y scale hscale : float) (overlap : value) :
    IVertoCanvasLayout.t :=
  {| IVertoCanvasLayout.memberID := memberID;
     IVertoCanvasLayout.audioPOS := Str "0:0:0";
     IVertoCanvasLayout.xPOS := Number 0; IVertoCanvasLayout.yPOS := Number 0;
     IVertoCanvasLayout.x := x; IVertoCanvasLayout.y := y;
     IVertoCanvasLayout.scale := scale; IVertoCanvasLayout.hscale := hscale;
     IVertoCanvasLayout.overlap := overlap;
     IVertoCanvasLayout.others := {[ "zoom" := Number 1 ]} |}.

Definition raw_canvas (scale : float) (canvasLayouts : loc) : IVertoCanvasInfo.t :=
  {| IVertoCanvasInfo.canvasID := Number 1; IVertoCanvasInfo.layoutFloorID := Number (-1);
     IVertoCanvasInfo.scale := scale;
     IVertoCanvasInfo.canvasLayouts := canvasLayouts;
     IVertoCanvasInfo.others := {[ "layoutName" := Str "2x2" ]} |}.

Definition three_layouts (o0 o1 o2 : value) : list IVertoCanvasLayout.t :=
  [ raw_layout (Number 7) 50 0 100 100 o0;
    raw_layout (Number 8) 150 0 50 50 o1;
    raw_layout (Str "9") 0 100 200 100 o2 ].

(** A store with a canvas of the given scale (at 4) over three layouts (at 1,
    2 and 3) with the given [overlap] fields. *)
Definition canvas_store (scale : float) (o0 o1 o2 : value) : state :=
  {| heap := Array [1; 2; 3] :: map VertoCanvasLayout (three_layouts o0 o1 o2)
               ++ [VertoCanvasInfo (raw_canvas scale 0)];
     resolutions := [] |}.

(** A raw layout that has properties of its own named [startX] and
    [participantId], and a store with a canvas of scale 200 (at 2) over it
    (at 1). *)
Definition raw_layout_with_startX : IVertoCanvasLayout.t :=
  {| IVertoCanvasLayout.memberID := Number 7;
     IVertoCanvasLayout.audioPOS := Str "0:0:0";
     IVertoCanvasLayout.xPOS := Number 0; IVertoCanvasLayout.yPOS := Number 0;
     IVertoCanvasLayout.x := 50; IVertoCanvasLayout.y := 0;
     IVertoCanvasLayout.scale := 100; IVertoCanvasLayout.hscale := 100;
     IVertoCanvasLayout.overlap := Number 0;
     IVertoCanvasLayout.others :=
       list_to_map [("startX", Str "boom"); ("participantId", Str "someone-else")] |}.

Definition own_startX_store : state :=
  {| heap := [Array [1]; VertoCanvasLayout raw_layout_with_startX;
              VertoCanvasInfo (raw_canvas 200 0)];
     resolutions := [] |}.

(** *** getMediaConstraints *)

(** The store holds the options object [o] at [options], and what it has as
    [audio] and [video], where that is an object, is a MediaTrackConstraints
    object of the store. *)
Definition well_typed_options (σ : state) (options : loc) (o : CallOptions.t) : Prop :=
  heap σ !! options = Some (Options o) ∧
  (∀ l, CallOptions.audio o = Some (inr l) → ∃ m, heap σ !! l = Some (TrackConstraints m)) ∧
  (∀ l, CallOptions.video o = Some (inr l) → ∃ m, heap σ !! l = Some (TrackConstraints m)).

(** The device a preferred id stands for, if any: the id is supplied and is
    not empty, and the resolver resolves it to an id that is not empty. *)
Definition preferred (assureDeviceId : string → string → DeviceType → option string)
    (id label : option string) (kind : DeviceType) : option string :=
  match id with
  | Some i =>
      if JsString.truthy i then
        match assureDeviceId i (default "" label) kind with
        | Some d => if JsString.truthy d then Some d else None
        | None => None
        end
      else None
  | None => None
  end.

(** The resolution asked for a preferred id, if one is asked. *)
Definition asked (id label : option string) (kind : DeviceType) :
    list (string * string * DeviceType) :=
  match id with
  | Some i => if JsString.truthy i then [(i, default "" label, kind)] else []
  | None => []
  end.

(** The statements of lines 34-42, and of lines 46-54, for one track. *)
Definition narrow (assureDeviceId : string → string → DeviceType → option string)
    (kind : DeviceType) (track : bool + loc) (id : option string) (label : string) :
    M (bool + loc) :=
  match id with
  | Some id =>
      if JsString.truthy id then
        id ← await_assureDeviceId assureDeviceId id label kind;
        match id with
        | Some id =>
            if JsString.truthy id then
              track ← object_if_boolean track;
              set_deviceId track id;;
              mret (inr track)
            else mret track
        | None => mret track
        end
      else mret track
  | None => mret track
  end.

(** The cell of an object after [object.deviceId = { exact: d }]. *)
Definition with_deviceId (d : string) (c : cell) : cell :=
  match c with
  | TrackConstraints m => TrackConstraints (<["deviceId" := Exact d]> m)
  | _ => c
  end.

(** The track and the objects after the statements of [narrow], for the
    device [p] the preferred id stands for. *)
Definition narrowed (h : list cell) (track : bool + loc) (p : option string) :
    (bool + loc) * list cell :=
  match p with
  | None => (track, h)
  | Some d =>
      match track with
      | inl _ => (inr (length h), h ++ [TrackConstraints (<["deviceId" := Exact d]> ∅)])
      | inr l =>
          (inr l, match h !! l with Some c => <[l := with_deviceId d c]> h | None => h end)
      end
  end.

(** An options object with nothing but the given preferred ids. *)
Definition options_with (audio : option (bool + loc)) (micId camId : option string) :
    CallOptions.t :=
  {| CallOptions.audio := audio; CallOptions.micId := micId; CallOptions.micLabel := None;
     CallOptions.video := None; CallOptions.camId := camId; CallOptions.camLabel := None |}.

(** A resolver that knows the microphone "mic-1" and nothing else. *)
Definition one_microphone (id label : string) (kind : DeviceType) : option string :=
  match kind with
  | AudioIn => if String.eqb id "mic-1" then Some "device-1" else None
  | _ => None
  end.

(** A resolver that rejects every request. *)
Definition no_device (id label : string) (kind : DeviceType) : option string := None.

(** A store with a constraints object of the caller (at 0) and the options
    object [o] (at 1). *)
Definition options_store (o : CallOptions.t) : state :=
  {| heap := [TrackConstraints {[ "echoCancellation" := Plain (Bool true) ]}; Options o];
     resolutions := [] |}.

(** The store with the options object at [options] replaced by [o]. *)
Definition with_options (options : loc) (o : CallOptions.t) (σ : state) : state :=
  {| heap := <[options := Options o]> (heap σ); resolutions := resolutions σ |}.

(** The options without a [micId], and without a [camId]. *)
Definition without_micId (o : CallOptions.t) : CallOptions.t :=
  {| CallOptions.audio := CallOptions.audio o; CallOptions.micId := None;
     CallOptions.micLabel := CallOptions.micLabel o;
     CallOptions.video := CallOptions.video o; CallOptions.camId := CallOptions.camId o;
     CallOptions.camLabel := CallOptions.camLabel o |}.

Definition without_camId (o : CallOptions.t) : CallOptions.t :=
  {| CallOptions.audio := CallOptions.audio o; CallOptions.micId := CallOptions.micId o;
     CallOptions.micLabel := CallOptions.micLabel o;
     CallOptions.video := CallOptions.video o; CallOptions.camId := None;
     CallOptions.camLabel := CallOptions.camLabel o |}.

(** *** The layout catalog *)

(** The catalog entry [_layoutReducer] makes of a layout or a group. *)
Definition entry_of (layout : IVertoLayout.t) : ILayout.t :=
  {| ILayout.id := IVertoLayout.name layout;
     ILayout.label :=
       match IVertoLayout.displayName layout with
       | Some d => if JsString.truthy d then d else JsString.replace_dash_underscore (IVertoLayout.name layout)
       | None => JsString.replace_dash_underscore (IVertoLayout.name layout)
       end;
     ILayout.type := IVertoLayout.type layout;
     ILayout.reservationIds := default [] (IVertoLayout.resIDS layout);
     ILayout.belongsToAGroup := false |}.

(** The key [_layoutCompare] compares entries by. *)
Definition sort_key (e : ILayout.t) : string := JsString.toLowerCase (ILayout.label e).

(** A raw layout, and a raw group with its member layouts. *)
Definition raw_flat (name : string) (displayName : option string) : IVertoLayout.t :=
  {| IVertoLayout.type := Str "layout"; IVertoLayout.name := name;
     IVertoLayout.displayName := displayName;
     IVertoLayout.resIDS := None; IVertoLayout.groupLayouts := None |}.

Definition raw_group (name : string) (displayName : option string)
    (groupLayouts : list string) : IVertoLayout.t :=
  {| IVertoLayout.type := Str "layoutGroup"; IVertoLayout.name := name;
     IVertoLayout.displayName := displayName;
     IVertoLayout.resIDS := None; IVertoLayout.groupLayouts := Some groupLayouts |}.

(** *** removeUnsupportedConstraints *)

(** The property [key] with the value [c] stays: the browser supports the
    key, and the value is neither [null] nor [undefined]. *)
Definition stays (supported : gset string) (kc : string * constraint) : Prop :=
  kc.1 ∈ supported ∧ is_null kc.2 = false ∧ is_undefined kc.2 = false.

#[global] Instance stays_dec supported kc : Decision (stays supported kc) :=
  and_dec _ (and_dec _ _).

(** A store with one constraints object (at 0) that has a supported and set
    property, an unsupported one, and one that is [null]. *)
Definition constraints_store : state :=
  {| heap := [TrackConstraints (list_to_map
                [("echoCancellation", Plain (Bool true)); ("zoom", Plain (Number 2));
                 ("frameRate", Plain Null)])];
     resolutions := [] |}.
(** *** destructSubscribeResponse *)

(** The five keys of the result. *)
Definition subscription_keys : list string :=
  ["subscribed"; "alreadySubscribed"; "unauthorized"; "unsubscribed"; "notSubscribed"].

(** [value || []] for a property of the response that may be absent. *)
Definition channels_or_empty (channels : option field) : field :=
  match channels with
  | Some channels => if JsCoerce.Boolean_ channels then channels else FStrings []
  | None => FStrings []
  end.

(** *** destructConferenceState *)

(** What reading [key] from a payload gives where it does not throw, and
    what reading [key] from [variables] or [flags] gives ([undefined] stands
    for the empty object there, the default of the destructuring). *)
Definition read_payload (p : payload) (key : string) : field :=
  match p with
  | PObject o => default (FPrim Undefined) (o !! key)
  | PPrim _ => FPrim Undefined
  end.

Definition read (x : field) (key : string) : value :=
  match x with
  | FObject o => default Undefined (o !! key)
  | _ => Undefined
  end.

(** The fields of the result made with [Boolean(...)] or [===]. *)
Definition boolean_keys : list string :=
  ["running"; "isPrivate"; "mohPlaying"; "filesPlaying"; "asyncFilesPlaying";
   "asyncFilesPlayingPaused"; "filesSeekable"; "asyncFilesSeekable"; "filesFullScreen";
   "personalCanvas"; "locked"; "recording"; "liveMusic"; "publicClipeeze";
   "speakerHighlight"; "disableIntercom"].

(** The fields made with [|| null], and those made with [|| false]. *)
Definition or_null_keys : list string :=
  ["filesPlayingName"; "asyncFilesPlayingName"; "asyncFilesPlayingVolume";
   "personalCanvasTP"; "accessPin"; "moderatorPin"].

Definition or_false_keys : list string := ["silentMode"; "meetingMode"; "vidMuteHide"].

(** A conference state as the server sends it, and a reading of numeric
    strings that knows "3". *)
Definition raw_conference : payload :=
  PObject (list_to_map
    [("uuid", FPrim (Str "c0ffee")); ("md5", FPrim (Str "abc")); ("domain", FPrim (Str "example.com"));
     ("running", FPrim (Bool true)); ("name", FPrim (Str "room")); ("members", FPrim (Str "3"));
     ("variables", FObject (list_to_map [("is_private", Str "true"); ("access_pin", Str "")]));
     ("flags", FObject (list_to_map [("locked", Bool true)]))]).

Definition three_or_nan (s : string) : float :=
  if String.eqb s "3" then 3%float else nan.

(** *** The tracks of a media stream *)

(** The track after [_updateTrack]. *)
Definition updated (enabled : option bool) (t : MediaStreamTrack.t) : MediaStreamTrack.t :=
  {| MediaStreamTrack.kind := MediaStreamTrack.kind t;
     MediaStreamTrack.enabled :=
       match enabled with
       | Some b => b
       | None => negb (MediaStreamTrack.enabled t)
       end |}.

(** A validity test for the examples: a stream that is an object is valid,
    [null] is not. *)
Definition is_stream (stream : option (list loc)) : bool :=
  match stream with Some _ => true | None => false end.

(** Two audio tracks, the second one muted, and a video track. *)
Definition three_tracks : list MediaStreamTrack.t :=
  [ {| MediaStreamTrack.kind := "audio"; MediaStreamTrack.enabled := true |};
    {| MediaStreamTrack.kind := "audio"; MediaStreamTrack.enabled := false |};
    {| MediaStreamTrack.kind := "video"; MediaStreamTrack.enabled := true |} ].

(** * Properties *)

(** ** Running the store operations *)

Lemma bind_run {A B} (m : M A) (k : A → M B) σ :
  (m ≫= k) σ =
  match m σ with
  | (Normal a, σ') => k a σ'
  | (Throw e, σ') => (Throw e, σ')
  end.
Proof. reflexivity. Qed.

Lemma load_as_run {A} (view : cell → option A) l σ c a :
  heap σ !! l = Some c → view c = Some a → load_as view l σ = (Normal a, σ).
Proof.
  intros Hl Hv. unfold load_as. rewrite bind_run. unfold load. now rewrite Hl, Hv.
Qed.

Lemma push_run h a t rs o :
  push (length h) o (mkState (h ++ Array a :: t) rs) =
  (Normal tt, mkState (h ++ Array (a ++ [o]) :: t) rs).
Proof.
  unfold push. rewrite bind_run.
  rewrite (load_as_run as_Array _ _ (Array a) a); [| | reflexivity].
  - unfold store. cbn [heap resolutions]. f_equal. f_equal.
    rewrite <- (Nat.add_0_r (length h)) at 1. now rewrite insert_app_r.
  - cbn [heap]. apply list_lookup_middle. reflexivity.
Qed.

Lemma for_canvasLayouts_run scale ls : ∀ Ls h acc t rs ov,
  Forall2 (λ l L, h !! l = Some (VertoCanvasLayout L)) ls Ls →
  for_canvasLayouts scale (length h) ls ov (mkState (h ++ Array acc :: t) rs) =
  (Normal (ov || existsb overlaps Ls),
   mkState (h ++ Array (acc ++ seq (length h + 1 + length t) (length ls))
              :: t ++ map (λ L, CanvasLayout (canvasLayout scale L)) Ls) rs).
Proof.
  induction ls as [|l ls IH]; intros Ls h acc t rs ov HF.
  - apply Forall2_nil_inv_l in HF as ->. cbn.
    now rewrite orb_false_r, !app_nil_r.
  - apply Forall2_cons_inv_l in HF as (L & Ls' & HL & HF & ->).
    cbn [for_canvasLayouts]. rewrite bind_run.
    rewrite (load_as_run as_VertoCanvasLayout _ _ (VertoCanvasLayout L) L);
      [| cbn [heap]; now apply lookup_app_l_Some | reflexivity].
    rewrite bind_run. unfold alloc at 1. cbn [heap resolutions].
    rewrite <- app_assoc. cbn [app]. rewrite bind_run, push_run.
    rewrite (IH Ls' h _ _ rs _ HF).
    cbn [existsb length map seq]. fold (overlaps L).
    rewrite orb_assoc. f_equal. f_equal. f_equal.
    rewrite !List.length_app. cbn [length].
    replace (length h + S (length t))%nat with (length h + 1 + length t)%nat by lia.
    replace (length h + 1 + (length t + 1))%nat with (S (length h + 1 + length t)) by lia.
    now rewrite <- !app_assoc.
Qed.

Lemma mutateCanvasInfoData_run σ canvasInfo ci ls Ls :
  holds_canvas σ canvasInfo ci ls Ls →
  mutateCanvasInfoData canvasInfo σ =
  (Normal (length (heap σ) + 1 + length ls),
   mkState (heap σ ++ Array (seq (length (heap σ) + 1) (length ls))
              :: map (λ L, CanvasLayout (canvasLayout (IVertoCanvasInfo.scale ci) L)) Ls
              ++ [CanvasInfo (canvasInfo_of ci (length (heap σ)) (existsb overlaps Ls))])
           (resolutions σ)).
Proof.
  intros (Hc & Ha & HF). destruct σ as [h rs]. cbn [heap resolutions] in *.
  unfold mutateCanvasInfoData. rewrite bind_run.
  rewrite (load_as_run as_VertoCanvasInfo canvasInfo (mkState h rs) _ ci Hc); [| reflexivity].
  rewrite bind_run. unfold alloc at 1. cbn [heap resolutions].
  rewrite bind_run.
  rewrite (load_as_run as_Array _ _ (Array ls) ls); [| | reflexivity].
  2:{ cbn [heap]. now apply lookup_app_l_Some. }
  rewrite bind_run.
  rewrite (for_canvasLayouts_run _ ls Ls h [] [] rs false HF).
  unfold alloc. cbn [heap resolutions app orb length].
  rewrite Nat.add_0_r. f_equal.
  - f_equal. rewrite List.length_app. cbn [length]. rewrite length_map.
    apply Forall2_length in HF. lia.
  - f_equal. rewrite <- app_assoc. cbn [app]. reflexivity.
Qed.

(** ** Numbers *)

(** The string conversion on some numbers, among them those of the two
    boundaries of the exponent notation. *)
Example Number_toString_samples :
  map Js.Number_toString
      [25; 1 / 3 * 100; 1 / 10 + 2 / 10; 1 / 2; -7; 0; -0;
       100000000000000000000; 1000000000000000000000;
       1 / 1000000; 1 / 10000000; 0 / 0; 1 / 0; -1 / 0]%float =
  ["25"; "33.33333333333333"; "0.30000000000000004"; "0.5"; "-7"; "0"; "0";
   "100000000000000000000"; "1e+21"; "0.000001"; "1e-7"; "NaN"; "Infinity";
   "-Infinity"].
Proof. vm_compute. reflexivity. Qed.

(** Rounding to two decimals: a half goes away from zero, and a number too
    large to have two decimals at all is returned as it is. *)
Example roundToFixed_samples :
  map (λ v, Js.Number_toString (roundToFixed v))
      [1 / 3 * 100; 50 / 200 * 100; 25 / 8; -25 / 8; 200 / 3; 1 / 256; 12;
       3000000000000003.5; 70368744177664.015625]%float =
  ["33.33"; "25"; "3.13"; "-3.13"; "66.67"; "0"; "12";
   "3000000000000003.5"; "70368744177664.02"].
Proof. vm_compute. reflexivity. Qed.

Lemma strict_equal_one (v : value) :
  strict_equal v (Number 1) = true ↔ v = Number 1.
Proof.
  split; [| intros ->; reflexivity].
  destruct v as [| | b | n | s]; cbn; try discriminate.
  rewrite FloatAxioms.eqb_spec. intros H. f_equal. apply Prim2SF_inj.
  change (Prim2SF 1) with (S754_finite false 4503599627370496 (-52)) in *.
  destruct (Prim2SF n) as [b | [] | | sg m e]; try discriminate.
  unfold SFeqb, SFcompare in H. destruct sg; [discriminate |].
  destruct (e ?= -52)%Z eqn:He; try discriminate.
  destruct (Pos.compare_cont Eq m 4503599627370496) eqn:Hm; try discriminate.
  apply Z.compare_eq in He. apply Pos.compare_eq in Hm. now subst.
Qed.

Lemma divided_by_zero (v s : float) :
  (s =? 0)%float = true → nan_or_infinite (v / s * 100)%float.
Proof.
  rewrite FloatAxioms.eqb_spec. intros Hs.
  change (Prim2SF 0) with (S754_zero false) in Hs.
  assert (Hz : ∃ b, Prim2SF s = S754_zero b).
  { destruct (Prim2SF s) as [b | [] | | [] m e]; try discriminate; eauto. }
  destruct Hz as [b Hz].
  assert (Hq : Prim2SF (v / s) = S754_nan ∨ ∃ c, Prim2SF (v / s) = S754_infinity c).
  { rewrite div_spec, Hz. unfold SF64div, SFdiv.
    destruct (Prim2SF v); eauto. }
  assert (Hp : Prim2SF (v / s * 100) = S754_nan ∨
               ∃ c, Prim2SF (v / s * 100) = S754_infinity c).
  { rewrite mul_spec.
    change (Prim2SF 100) with (S754_finite false 7036874417766400 (-46)).
    destruct Hq as [-> | [c ->]]; unfold SF64mul, SFmul; eauto. }
  unfold nan_or_infinite.
  destruct Hp as [Hp | [[] Hp]]; [left | right; right | right; left];
    apply Prim2SF_inj; rewrite Hp; reflexivity.
Qed.

(** ** mutateCanvasInfoData *)

Lemma lookup_after_middle {A} (h t : list A) (a : A) (i : nat) :
  (h ++ a :: t) !! (length h + 1 + i) = t !! i.
Proof.
  rewrite lookup_app_r by lia.
  replace (length h + 1 + i - length h) with (S i) by lia. reflexivity.
Qed.

(** What the run of [mutateCanvasInfoData] leaves in the store, read back
    through the locations it returns. *)
Lemma mutateCanvasInfoData_result σ canvasInfo ci ls Ls :
  holds_canvas σ canvasInfo ci ls Ls →
  ∃ r σ' outs,
    mutateCanvasInfoData canvasInfo σ = (Normal r, σ') ∧
    heap σ' !! r =
      Some (CanvasInfo (canvasInfo_of ci (length (heap σ)) (existsb overlaps Ls))) ∧
    heap σ' !! length (heap σ) = Some (Array outs) ∧
    length outs = length ls ∧
    (∀ i L, Ls !! i = Some L →
       ∃ o, outs !! i = Some o ∧ new_in σ o ∧
            heap σ' !! o =
              Some (CanvasLayout (canvasLayout (IVertoCanvasInfo.scale ci) L))) ∧
    new_in σ r ∧
    heap σ `prefix_of` heap σ' ∧
    resolutions σ' = resolutions σ.
Proof.
  intros H. pose proof H as (_ & _ & HF). apply Forall2_length in HF.
  rewrite (mutateCanvasInfoData_run _ _ _ _ _ H).
  eexists _, _, (seq (length (heap σ) + 1) (length ls)).
  split; [reflexivity |]. cbn [heap resolutions].
  repeat split.
  - rewrite lookup_after_middle, lookup_app_r by (rewrite List.length_map; lia).
    rewrite List.length_map, HF, Nat.sub_diag. reflexivity.
  - now rewrite list_lookup_middle.
  - apply length_seq.
  - intros i L Hi. exists (length (heap σ) + 1 + i).
    pose proof (lookup_lt_Some _ _ _ Hi) as Hlt.
    split; [| split].
    + rewrite lookup_seq_lt by lia. reflexivity.
    + unfold new_in. lia.
    + rewrite lookup_after_middle, lookup_app_l by (rewrite List.length_map; lia).
      rewrite list_lookup_fmap, Hi. reflexivity.
  - unfold new_in. lia.
  - now eexists.
Qed.

(** The properties of the pushed object: a property the rest spread
    copies, with any name but those of the nine fields of the raw layout, is
    the raw layout's. *)
Lemma layout_rest_other L key :
  key ≠ "x" → key ≠ "y" → key ≠ "scale" → key ≠ "hscale" → key ≠ "overlap" →
  key ≠ "memberID" → key ≠ "audioPOS" → key ≠ "xPOS" → key ≠ "yPOS" →
  layout_rest L !! key = IVertoCanvasLayout.others L !! key.
Proof.
  intros. unfold layout_rest.
  rewrite !lookup_insert_ne, !lookup_delete_ne by congruence. reflexivity.
Qed.

(** A property the literal computes is replaced by the raw layout's own
    property of that name, if it has one. *)
Lemma canvasLayout_computed scale L key computed :
  key ≠ "x" → key ≠ "y" → key ≠ "scale" → key ≠ "hscale" → key ≠ "overlap" →
  key ≠ "memberID" → key ≠ "audioPOS" → key ≠ "xPOS" → key ≠ "yPOS" →
  (canvasLayout scale (IVertoCanvasLayout.mk (IVertoCanvasLayout.memberID L)
     (IVertoCanvasLayout.audioPOS L) (IVertoCanvasLayout.xPOS L)
     (IVertoCanvasLayout.yPOS L) (IVertoCanvasLayout.x L) (IVertoCanvasLayout.y L)
     (IVertoCanvasLayout.scale L) (IVertoCanvasLayout.hscale L)
     (IVertoCanvasLayout.overlap L) ∅)) !! key = Some computed →
  canvasLayout scale L !! key =
  Some (default computed (IVertoCanvasLayout.others L !! key)).
Proof.
  intros ? ? ? ? ? ? ? ? ? Hc. unfold canvasLayout in *.
  rewrite lookup_union in *. rewrite layout_rest_other in * by assumption.
  cbn [IVertoCanvasLayout.others IVertoCanvasLayout.memberID IVertoCanvasLayout.audioPOS
       IVertoCanvasLayout.xPOS IVertoCanvasLayout.yPOS IVertoCanvasLayout.x
       IVertoCanvasLayout.y IVertoCanvasLayout.scale IVertoCanvasLayout.hscale
       IVertoCanvasLayout.overlap] in Hc.
  rewrite lookup_empty in Hc. rewrite (left_id_L None _) in Hc. rewrite Hc.
  now destruct (IVertoCanvasLayout.others L !! key).
Qed.

(** C1, as the specification states it, fails for a raw layout that has a
    property of its own named like one the function computes: the rest
    spread is the last member of the pushed literal (line 124) and replaces
    the computed value.  With scale 200 and [x] 50 the percentage is "25%",
    and the string form of the [memberID] 7 is "7", but the entry returned
    has the [startX] and the [participantId] of the raw layout. *)
Lemma own_startX_replaces_the_percentage :
  holds_canvas own_startX_store 2 (raw_canvas 200 0) [1] [raw_layout_with_startX] ∧
  finite_positive 200 ∧
  ∃ r σ' out O,
    mutateCanvasInfoData 2 own_startX_store = (Normal r, σ') ∧
    heap σ' !! r = Some (CanvasInfo out) ∧
    heap σ' !! ICanvasInfo.canvasLayouts out = Some (Array [4]) ∧
    heap σ' !! 4 = Some (CanvasLayout O) ∧
    Js.Number_toString (roundToFixed (50 / 200 * 100)) +:+ "%" = "25%" ∧
    O !! "startX" = Some (Str "boom") ∧
    String_ (Number 7) = "7" ∧
    O !! "participantId" = Some (Str "someone-else").
Proof.
  assert (Hc : holds_canvas own_startX_store 2 (raw_canvas 200 0) [1]
                 [raw_layout_with_startX]).
  { repeat split; repeat constructor. }
  split; [exact Hc |]. split; [split; reflexivity |].
  pose proof (mutateCanvasInfoData_run _ _ _ _ _ Hc) as Hrun.
  eexists _, _, _, _. split; [exact Hrun |].
  split; [reflexivity |]. split; [reflexivity |]. split; [reflexivity |].
  repeat split; vm_compute; reflexivity.
Qed.

(** C1, amended.  For a canvas with a finite positive scale,
    [mutateCanvasInfoData] returns a canvas whose [canvasLayouts] array is as
    long as the input's, and whose entry at index [i] is made from the input
    layout at index [i]: [startX], [startY], [percentageWidth] and
    [percentageHeight] are the two-decimal rounding of [x], [y], [scale] and
    [hscale] divided by the canvas scale and multiplied by 100, followed by
    a percent sign, and [participantId] is the string form of [memberID],
    each unless the raw layout has a property of its own of that name,
    which is then passed through in its place.  With scale 200 and [x] 50
    [startX] is "25%"; with scale 3 and [x] 1 it is "33.33%". *)
Theorem mutateCanvasInfoData_percentages σ canvasInfo ci ls Ls :
  holds_canvas σ canvasInfo ci ls Ls →
  finite_positive (IVertoCanvasInfo.scale ci) →
  ∃ r σ' out outs,
    mutateCanvasInfoData canvasInfo σ = (Normal r, σ') ∧
    heap σ' !! r = Some (CanvasInfo out) ∧
    heap σ' !! ICanvasInfo.canvasLayouts out = Some (Array outs) ∧
    length outs = length ls ∧
    ∀ i L, Ls !! i = Some L →
      ∃ o O,
        outs !! i = Some o ∧ heap σ' !! o = Some (CanvasLayout O) ∧
        let scale := IVertoCanvasInfo.scale ci in
        let round2 v := Js.Number_toString (roundToFixed v) in
        let own key := IVertoCanvasLayout.others L !! key in
        O !! "startX" =
          Some (default (Str (round2 (IVertoCanvasLayout.x L / scale * 100)%float +:+ "%"))
                        (own "startX")) ∧
        O !! "startY" =
          Some (default (Str (round2 (IVertoCanvasLayout.y L / scale * 100)%float +:+ "%"))
                        (own "startY")) ∧
        O !! "percentageWidth" =
          Some (default
                  (Str (round2 (IVertoCanvasLayout.scale L / scale * 100)%float +:+ "%"))
                  (own "percentageWidth")) ∧
        O !! "percentageHeight" =
          Some (default
                  (Str (round2 (IVertoCanvasLayout.hscale L / scale * 100)%float +:+ "%"))
                  (own "percentageHeight")) ∧
        O !! "participantId" =
          Some (default (Str (String_ (IVertoCanvasLayout.memberID L)))
                        (own "participantId")) ∧
        (scale = 200%float → IVertoCanvasLayout.x L = 50%float → own "startX" = None →
         O !! "startX" = Some (Str "25%")) ∧
        (scale = 3%float → IVertoCanvasLayout.x L = 1%float → own "startX" = None →
         O !! "startX" = Some (Str "33.33%")).
Proof.
  intros H _.
  destruct (mutateCanvasInfoData_result _ _ _ _ _ H)
    as (r & σ' & outs & Hrun & Hr & Ha & Hlen & Hout & _).
  exists r, σ', (canvasInfo_of ci (length (heap σ)) (existsb overlaps Ls)), outs.
  repeat split; try assumption.
  intros i L Hi. destruct (Hout i L Hi) as (o & Ho & _ & HO).
  exists o, (canvasLayout (IVertoCanvasInfo.scale ci) L).
  split; [exact Ho |]. split; [exact HO |]. cbv zeta.
  assert (Hx : canvasLayout (IVertoCanvasInfo.scale ci) L !! "startX" =
               Some (default (Str (percent (IVertoCanvasLayout.x L
                                            / IVertoCanvasInfo.scale ci * 100)))
                             (IVertoCanvasLayout.others L !! "startX")))
    by (apply canvasLayout_computed; (discriminate || reflexivity)).
  repeat split; try (apply canvasLayout_computed; (discriminate || reflexivity)).
  - intros Hs Hv Hown. rewrite Hx, Hown, Hs, Hv. vm_compute. reflexivity.
  - intros Hs Hv Hown. rewrite Hx, Hown, Hs, Hv. vm_compute. reflexivity.
Qed.

Lemma mutateCanvasInfoData_percentages_witness :
  let σ := canvas_store 200 (Number 0) (Number 0) (Number 1) in
  holds_canvas σ 4 (raw_canvas 200 0) [1; 2; 3]
    (three_layouts (Number 0) (Number 0) (Number 1)) ∧
  finite_positive 200 ∧
  ∃ r σ' o O,
    mutateCanvasInfoData 4 σ = (Normal r, σ') ∧
    heap σ' !! o = Some (CanvasLayout O) ∧
    O !! "startX" = Some (Str "25%") ∧ O !! "participantId" = Some (Str "7").
Proof.
  assert (Hc : holds_canvas (canvas_store 200 (Number 0) (Number 0) (Number 1)) 4
                 (raw_canvas 200 0) [1; 2; 3]
                 (three_layouts (Number 0) (Number 0) (Number 1))).
  { repeat split; repeat constructor. }
  assert (Hs : finite_positive 200) by (split; reflexivity).
  split; [exact Hc |]. split; [exact Hs |].
  destruct (mutateCanvasInfoData_percentages _ _ _ _ _ Hc Hs)
    as (r & σ' & out & outs & Hrun & _ & _ & _ & Hout).
  destruct (Hout 0 _ eq_refl) as (o & O & _ & HO & _ & _ & _ & _ & Hid & H25 & _).
  exists r, σ', o, O. split; [exact Hrun |]. split; [exact HO |].
  split; [apply H25; reflexivity |].
  rewrite Hid. reflexivity.
Defined.

(** C2.  The [layoutOverlap] field of the canvas that [mutateCanvasInfoData]
    returns is true exactly when some layout of the input has an [overlap]
    field that is the number 1: the overlaps 0, 0, 1 give true, the overlaps
    0, 0, 0 and 0, 0, 2 give false. *)
Theorem mutateCanvasInfoData_layoutOverlap σ canvasInfo ci ls Ls :
  holds_canvas σ canvasInfo ci ls Ls →
  ∃ r σ' out,
    mutateCanvasInfoData canvasInfo σ = (Normal r, σ') ∧
    heap σ' !! r = Some (CanvasInfo out) ∧
    (ICanvasInfo.layoutOverlap out = true ↔
     ∃ i L, Ls !! i = Some L ∧ IVertoCanvasLayout.overlap L = Number 1) ∧
    (map IVertoCanvasLayout.overlap Ls = [Number 0; Number 0; Number 1] →
     ICanvasInfo.layoutOverlap out = true) ∧
    (map IVertoCanvasLayout.overlap Ls = [Number 0; Number 0; Number 0] →
     ICanvasInfo.layoutOverlap out = false) ∧
    (map IVertoCanvasLayout.overlap Ls = [Number 0; Number 0; Number 2] →
     ICanvasInfo.layoutOverlap out = false).
Proof.
  intros H.
  destruct (mutateCanvasInfoData_result _ _ _ _ _ H)
    as (r & σ' & outs & Hrun & Hr & _).
  exists r, σ', (canvasInfo_of ci (length (heap σ)) (existsb overlaps Ls)).
  split; [assumption |]. split; [assumption |].
  cbn [canvasInfo_of ICanvasInfo.layoutOverlap].
  assert (Hmap : existsb overlaps Ls =
                 existsb (λ v, strict_equal v (Number 1))
                         (map IVertoCanvasLayout.overlap Ls)).
  { clear. induction Ls as [|L Ls IH]; [reflexivity |]. cbn. now rewrite IH. }
  split; [| rewrite Hmap; repeat split; intros ->; reflexivity].
  rewrite existsb_exists. split.
  - intros (L & HL & Hov). apply list_elem_of_In, list_elem_of_lookup in HL as [i Hi].
    exists i, L. split; [assumption |]. now apply strict_equal_one.
  - intros (i & L & Hi & Hov). exists L. split.
    + apply list_elem_of_In, list_elem_of_lookup. eauto.
    + now apply strict_equal_one.
Qed.

Lemma mutateCanvasInfoData_layoutOverlap_witness :
  let σ := canvas_store 200 (Number 0) (Number 0) (Number 1) in
  holds_canvas σ 4 (raw_canvas 200 0) [1; 2; 3]
    (three_layouts (Number 0) (Number 0) (Number 1)) ∧
  ∃ r σ' out,
    mutateCanvasInfoData 4 σ = (Normal r, σ') ∧
    heap σ' !! r = Some (CanvasInfo out) ∧
    ICanvasInfo.layoutOverlap out = true.
Proof.
  assert (Hc : holds_canvas (canvas_store 200 (Number 0) (Number 0) (Number 1)) 4
                 (raw_canvas 200 0) [1; 2; 3]
                 (three_layouts (Number 0) (Number 0) (Number 1))).
  { repeat split; repeat constructor. }
  split; [exact Hc |].
  destruct (mutateCanvasInfoData_layoutOverlap _ _ _ _ _ Hc)
    as (r & σ' & out & Hrun & Hr & _ & H1 & _).
  exists r, σ', out. repeat split; try assumption. apply H1. reflexivity.
Defined.

(** C3, as the specification states it, fails: with a scale of zero the
    function returns normally.  Here [x / 0 * 100] is an infinity for the
    first layout and [y / 0 * 100] is NaN, and the strings made of them are
    in the canvas returned. *)
Lemma scale_zero_completes_normally :
  let σ := canvas_store 0 (Number 0) (Number 0) (Number 0) in
  holds_canvas σ 4 (raw_canvas 0 0) [1; 2; 3]
    (three_layouts (Number 0) (Number 0) (Number 0)) ∧
  (¬ ∃ e σ', mutateCanvasInfoData 4 σ = (Throw e, σ')) ∧
  ∃ r σ' O,
    mutateCanvasInfoData 4 σ = (Normal r, σ') ∧
    heap σ' !! 6 = Some (CanvasLayout O) ∧
    (50 / 0 * 100)%float = infinity ∧
    O !! "startX" = Some (Str (Js.Number_toString (roundToFixed infinity) +:+ "%")) ∧
    (0 / 0 * 100)%float = nan ∧
    O !! "startY" = Some (Str (Js.Number_toString (roundToFixed nan) +:+ "%")).
Proof.
  assert (Hc : holds_canvas (canvas_store 0 (Number 0) (Number 0) (Number 0)) 4
                 (raw_canvas 0 0) [1; 2; 3]
                 (three_layouts (Number 0) (Number 0) (Number 0))).
  { repeat split; repeat constructor. }
  split; [exact Hc |].
  pose proof (mutateCanvasInfoData_run _ _ _ _ _ Hc) as Hrun.
  split.
  - intros (e & σ' & He). rewrite Hrun in He. discriminate.
  - eexists _, _, _. split; [exact Hrun |]. repeat split.
Qed.

(** C3, amended.  For a canvas whose scale is zero [mutateCanvasInfoData]
    raises no error: it completes normally and returns a canvas with one
    entry for each input layout.  Each of the four quotients by the scale is
    NaN or an infinity, and the percentage fields are the strings the
    formulas of the function make of them, each unless the raw layout has a
    property of its own of that name, which is then passed through in its
    place. *)
Theorem mutateCanvasInfoData_scale_zero σ canvasInfo ci ls Ls :
  holds_canvas σ canvasInfo ci ls Ls →
  (IVertoCanvasInfo.scale ci =? 0)%float = true →
  ∃ r σ' out outs,
    mutateCanvasInfoData canvasInfo σ = (Normal r, σ') ∧
    heap σ' !! r = Some (CanvasInfo out) ∧
    heap σ' !! ICanvasInfo.canvasLayouts out = Some (Array outs) ∧
    length outs = length ls ∧
    ∀ i L, Ls !! i = Some L →
      ∃ o O,
        outs !! i = Some o ∧ heap σ' !! o = Some (CanvasLayout O) ∧
        let quotient v := (v / IVertoCanvasInfo.scale ci * 100)%float in
        let round2 v := Js.Number_toString (roundToFixed v) in
        let own key := IVertoCanvasLayout.others L !! key in
        nan_or_infinite (quotient (IVertoCanvasLayout.x L)) ∧
        nan_or_infinite (quotient (IVertoCanvasLayout.y L)) ∧
        nan_or_infinite (quotient (IVertoCanvasLayout.scale L)) ∧
        nan_or_infinite (quotient (IVertoCanvasLayout.hscale L)) ∧
        O !! "startX" =
          Some (default (Str (round2 (quotient (IVertoCanvasLayout.x L)) +:+ "%"))
                        (own "startX")) ∧
        O !! "startY" =
          Some (default (Str (round2 (quotient (IVertoCanvasLayout.y L)) +:+ "%"))
                        (own "startY")) ∧
        O !! "percentageWidth" =
          Some (default (Str (round2 (quotient (IVertoCanvasLayout.scale L)) +:+ "%"))
                        (own "percentageWidth")) ∧
        O !! "percentageHeight" =
          Some (default (Str (round2 (quotient (IVertoCanvasLayout.hscale L)) +:+ "%"))
                        (own "percentageHeight")).
Proof.
  intros H Hz.
  destruct (mutateCanvasInfoData_result _ _ _ _ _ H)
    as (r & σ' & outs & Hrun & Hr & Ha & Hlen & Hout & _).
  exists r, σ', (canvasInfo_of ci (length (heap σ)) (existsb overlaps Ls)), outs.
  repeat split; try assumption.
  intros i L Hi. destruct (Hout i L Hi) as (o & Ho & _ & HO).
  exists o, (canvasLayout (IVertoCanvasInfo.scale ci) L).
  split; [exact Ho |]. split; [exact HO |]. cbv zeta.
  repeat split; try (now apply divided_by_zero);
    apply canvasLayout_computed; (discriminate || reflexivity).
Qed.

Lemma mutateCanvasInfoData_scale_zero_witness :
  let σ := canvas_store 0 (Number 0) (Number 0) (Number 0) in
  holds_canvas σ 4 (raw_canvas 0 0) [1; 2; 3]
    (three_layouts (Number 0) (Number 0) (Number 0)) ∧
  (0 =? 0)%float = true ∧
  ∃ r σ' out outs,
    mutateCanvasInfoData 4 σ = (Normal r, σ') ∧
    heap σ' !! r = Some (CanvasInfo out) ∧
    heap σ' !! ICanvasInfo.canvasLayouts out = Some (Array outs) ∧
    length outs = 3 ∧
    ∃ o O, outs !! 0 = Some o ∧ heap σ' !! o = Some (CanvasLayout O) ∧
      O !! "startX" = Some (Str "Infinity%") ∧ O !! "startY" = Some (Str "NaN%").
Proof.
  assert (Hc : holds_canvas (canvas_store 0 (Number 0) (Number 0) (Number 0)) 4
                 (raw_canvas 0 0) [1; 2; 3]
                 (three_layouts (Number 0) (Number 0) (Number 0))).
  { repeat split; repeat constructor. }
  split; [exact Hc |]. split; [reflexivity |].
  destruct (mutateCanvasInfoData_scale_zero _ _ _ _ _ Hc eq_refl)
    as (r & σ' & out & outs & Hrun & Hr & Ha & Hlen & Hout).
  destruct (Hout 0 _ eq_refl) as (o & O & Ho & HO & _ & _ & _ & _ & Hx & Hy & _).
  exists r, σ', out, outs. repeat split; try assumption.
  exists o, O. split; [exact Ho |]. split; [exact HO |].
  split; [exact Hx | exact Hy].
Defined.

(** ** Frames: what a run leaves as it is *)

Lemma preserves_refl n σ : preserves n σ σ.
Proof. unfold preserves. auto. Qed.

Lemma preserves_trans n σ1 σ2 σ3 :
  preserves n σ1 σ2 → preserves n σ2 σ3 → preserves n σ1 σ3.
Proof.
  intros (Ht1 & Hl1 & Hr1) (Ht2 & Hl2 & Hr2). repeat split.
  - now rewrite Ht2.
  - lia.
  - now rewrite Hr2.
Qed.

Lemma frame_ret {A} n (a : A) : frame n (mret a).
Proof. intros σ _. apply preserves_refl. Qed.

Lemma frame_throw {A} n e : frame n (@throw A e).
Proof. intros σ _. apply preserves_refl. Qed.

Lemma frame_bind {A B} n (m : M A) (k : A → M B) :
  frame n m → (∀ a, frame n (k a)) → frame n (m ≫= k).
Proof.
  intros Hm Hk σ Hn. rewrite bind_run. specialize (Hm σ Hn).
  destruct (m σ) as [[a | e] σ1]; cbn [snd] in *; [| assumption].
  apply (preserves_trans _ _ σ1); [assumption |].
  apply Hk. destruct Hm as (_ & Hl & _). lia.
Qed.

Lemma frame_load n l : frame n (load l).
Proof. intros σ _. unfold load. destruct (heap σ !! l); apply preserves_refl. Qed.

Lemma frame_load_as {A} n (view : cell → option A) l : frame n (load_as view l).
Proof.
  apply frame_bind; [apply frame_load |].
  intros c. destruct (view c); [apply frame_ret | apply frame_throw].
Qed.

Lemma frame_store n l c : n ≤ l → frame n (store l c).
Proof.
  intros Hl σ Hn. unfold store. repeat split; cbn.
  - now apply take_insert_ge.
  - now rewrite length_insert.
Qed.

Lemma frame_push n array o : n ≤ array → frame n (push array o).
Proof.
  intros Hl. apply frame_bind; [apply frame_load_as |].
  intros a. now apply frame_store.
Qed.

(** A new object is no object below [n]; what follows may use that. *)
Lemma frame_alloc_bind {B} n c (k : loc → M B) :
  (∀ l, n ≤ l → frame n (k l)) → frame n (alloc c ≫= k).
Proof.
  intros Hk σ Hn. rewrite bind_run. unfold alloc.
  eapply preserves_trans; [| apply Hk; [exact Hn | cbn; rewrite List.length_app; lia]].
  repeat split; cbn.
  - now apply take_app_le.
  - rewrite List.length_app. lia.
Qed.

Lemma frame_alloc n c : frame n (alloc c).
Proof.
  intros σ Hn. unfold alloc. repeat split; cbn.
  - now apply take_app_le.
  - rewrite List.length_app. lia.
Qed.

Lemma frame_for_canvasLayouts n scale layouts ls :
  n ≤ layouts → ∀ ov, frame n (for_canvasLayouts scale layouts ls ov).
Proof.
  intros Hl. induction ls as [|l ls IH]; intros ov; cbn [for_canvasLayouts].
  - apply frame_ret.
  - apply frame_bind; [apply frame_load_as |]. intros layout.
    apply frame_bind; [apply frame_alloc |]. intros o.
    apply frame_bind; [now apply frame_push |]. intros _. apply IH.
Qed.

Lemma frame_mutateCanvasInfoData n canvasInfo : frame n (mutateCanvasInfoData canvasInfo).
Proof.
  unfold mutateCanvasInfoData.
  apply frame_bind; [apply frame_load_as |]. intros ci.
  apply frame_alloc_bind. intros layouts Hl.
  apply frame_bind; [apply frame_load_as |]. intros canvasLayouts.
  apply frame_bind; [now apply frame_for_canvasLayouts |]. intros ov.
  apply frame_alloc.
Qed.

Lemma preserves_objects_unchanged σ σ' :
  preserves (length (heap σ)) σ σ' → objects_unchanged σ σ'.
Proof.
  intros (Ht & Hl & _) l c Hc.
  pose proof (lookup_lt_Some _ _ _ Hc) as Hlt.
  rewrite <- (lookup_take_lt _ (length (heap σ))) by assumption.
  rewrite Ht, lookup_take_lt by assumption. exact Hc.
Qed.

(** ** getMediaConstraints *)

Lemma getMediaConstraints_narrow assureDeviceId options :
  getMediaConstraints assureDeviceId options =
  (o ← load_as as_Options options;
   audio ← narrow assureDeviceId AudioIn (default (inl true) (CallOptions.audio o))
             (CallOptions.micId o) (default "" (CallOptions.micLabel o));
   o ← load_as as_Options options;
   video ← narrow assureDeviceId Video (default (inl false) (CallOptions.video o))
             (CallOptions.camId o) (default "" (CallOptions.camLabel o));
   alloc (StreamConstraints
     {| MediaStreamConstraints.audio := audio; MediaStreamConstraints.video := video |})).
Proof. reflexivity. Qed.

Lemma set_deviceId_run σ l m d :
  heap σ !! l = Some (TrackConstraints m) →
  set_deviceId l d σ =
  (Normal tt, mkState (<[l := TrackConstraints (<["deviceId" := Exact d]> m)]> (heap σ))
                      (resolutions σ)).
Proof.
  intros Hl. unfold set_deviceId. rewrite bind_run.
  now rewrite (load_as_run as_TrackConstraints _ _ _ m Hl).
Qed.

Lemma narrow_run assureDeviceId kind track id label σ :
  (∀ l, track = inr l → ∃ m, heap σ !! l = Some (TrackConstraints m)) →
  narrow assureDeviceId kind track id (default "" label) σ =
  let p := preferred assureDeviceId id label kind in
  (Normal (narrowed (heap σ) track p).1,
   mkState (narrowed (heap σ) track p).2 (resolutions σ ++ asked id label kind)).
Proof.
  intros Hwt. unfold narrow, preferred, asked.
  destruct σ as [h rs]. cbn [heap resolutions] in *.
  destruct id as [i |]; [| cbn; now rewrite app_nil_r].
  destruct (JsString.truthy i); [| cbn; now rewrite app_nil_r].
  rewrite bind_run. unfold await_assureDeviceId. cbn [heap resolutions].
  destruct (assureDeviceId i (default "" label) kind) as [d |]; [| reflexivity].
  destruct (JsString.truthy d); [| reflexivity].
  rewrite bind_run. destruct track as [b | l]; cbn [object_if_boolean narrowed].
  - unfold alloc. cbn [heap resolutions]. rewrite bind_run.
    rewrite (set_deviceId_run _ _ ∅); [| cbn [heap]; now rewrite list_lookup_middle].
    cbn [heap resolutions fst snd]. f_equal. f_equal.
    rewrite <- (Nat.add_0_r (length h)) at 1. rewrite insert_app_r. reflexivity.
  - destruct (Hwt l eq_refl) as [m Hm]. rewrite Hm.
    unfold mret at 1, M_ret at 1. cbn iota.
    rewrite bind_run, (set_deviceId_run _ _ m) by exact Hm. reflexivity.
Qed.

Lemma narrowed_length h track p : length h ≤ length (narrowed h track p).2.
Proof.
  destruct p as [d |], track as [b | l]; cbn; try lia.
  - rewrite List.length_app. lia.
  - destruct (h !! l); [rewrite length_insert |]; lia.
Qed.

(** After [narrowed] an object is as before, unless it is the track and a
    device is preferred: then [deviceId] is set on it. *)
Lemma narrowed_lookup h track p l c :
  h !! l = Some c →
  (narrowed h track p).2 !! l =
  Some (match p with
        | Some d => if decide (track = inr l) then with_deviceId d c else c
        | None => c
        end).
Proof.
  intros Hl. destruct p as [d |]; [| exact Hl].
  destruct track as [b | l']; cbn [narrowed snd].
  - rewrite decide_False by discriminate. now apply lookup_app_l_Some.
  - destruct (decide (inr l' = inr l)) as [[= ->] | Hne].
    + rewrite Hl. apply list_lookup_insert_eq. now apply lookup_lt_Some in Hl.
    + destruct (h !! l') eqn:Hl'; [| exact Hl].
      rewrite list_lookup_insert_ne; [exact Hl | congruence].
Qed.

Lemma narrowed_options h track p l o :
  h !! l = Some (Options o) → (narrowed h track p).2 !! l = Some (Options o).
Proof.
  intros Hl. rewrite (narrowed_lookup _ _ _ _ _ Hl).
  destruct p; [destruct (decide _) |]; reflexivity.
Qed.

Lemma narrowed_constraints h track p l m :
  h !! l = Some (TrackConstraints m) →
  ∃ m', (narrowed h track p).2 !! l = Some (TrackConstraints m') ∧
        ∀ k, k ≠ "deviceId" → m' !! k = m !! k.
Proof.
  intros Hl. rewrite (narrowed_lookup _ _ _ _ _ Hl).
  destruct p as [d |]; [destruct (decide _) |]; eauto.
  cbn [with_deviceId]. eexists. split; [reflexivity |].
  intros k Hk. now rewrite lookup_insert_ne.
Qed.

(** The track after [narrowed]: the caller's object stays the caller's
    object; otherwise it is the boolean it was or a new object. *)
Lemma narrowed_track h track p :
  (∀ l, track = inr l → (narrowed h track p).1 = inr l) ∧
  (p = None → (narrowed h track p).1 = track) ∧
  (∀ l, (narrowed h track p).1 = inr l → track = inr l ∨ length h ≤ l).
Proof.
  destruct p as [d |], track as [b | l']; cbn; repeat split; try congruence;
    intros l [= <-]; auto.
Qed.

(** The run of [getMediaConstraints] on a well-typed store. *)
Lemma getMediaConstraints_run assureDeviceId σ options o :
  well_typed_options σ options o →
  let p1 := preferred assureDeviceId (CallOptions.micId o) (CallOptions.micLabel o) AudioIn in
  let n1 := narrowed (heap σ) (default (inl true) (CallOptions.audio o)) p1 in
  let p2 := preferred assureDeviceId (CallOptions.camId o) (CallOptions.camLabel o) Video in
  let n2 := narrowed n1.2 (default (inl false) (CallOptions.video o)) p2 in
  getMediaConstraints assureDeviceId options σ =
  (Normal (length n2.2),
   mkState (n2.2 ++ [StreamConstraints
                       {| MediaStreamConstraints.audio := n1.1;
                          MediaStreamConstraints.video := n2.1 |}])
           ((resolutions σ
             ++ asked (CallOptions.micId o) (CallOptions.micLabel o) AudioIn)
             ++ asked (CallOptions.camId o) (CallOptions.camLabel o) Video)).
Proof.
  intros (Ho & Ha & Hv) p1 n1 p2 n2.
  rewrite getMediaConstraints_narrow, bind_run.
  rewrite (load_as_run as_Options _ _ _ o Ho) by reflexivity.
  rewrite bind_run, narrow_run.
  2:{ intros l Hl. apply Ha. destruct (CallOptions.audio o) as [[] |]; cbn in Hl; congruence. }
  cbv beta iota zeta. fold p1 n1. rewrite bind_run.
  assert (Ho1 : n1.2 !! options = Some (Options o)) by now apply narrowed_options.
  rewrite (load_as_run as_Options options (mkState n1.2 _) (Options o) o Ho1 eq_refl).
  rewrite bind_run, narrow_run.
  2:{ cbn [heap]. intros l Hl.
      destruct (Hv l) as [m Hm].
      { destruct (CallOptions.video o) as [[] |]; cbn in Hl; congruence. }
      destruct (narrowed_constraints (heap σ) (default (inl true) (CallOptions.audio o))
                  p1 l m Hm) as (m' & Hm' & _).
      eauto. }
  cbv beta iota zeta. reflexivity.
Qed.

Lemma default_inr (track : option (bool + loc)) (b : bool) (l : loc) :
  default (inl b) track = inr l ↔ track = Some (inr l).
Proof. destruct track as [[] |]; cbn; split; congruence. Qed.

(** Everything a run of [getMediaConstraints] on a well-typed store does. *)
Lemma getMediaConstraints_effect assureDeviceId σ options o :
  well_typed_options σ options o →
  let p1 := preferred assureDeviceId (CallOptions.micId o) (CallOptions.micLabel o) AudioIn in
  let p2 := preferred assureDeviceId (CallOptions.camId o) (CallOptions.camLabel o) Video in
  ∃ r σ' s,
    getMediaConstraints assureDeviceId options σ = (Normal r, σ') ∧
    heap σ' !! r = Some (StreamConstraints s) ∧
    new_in σ r ∧
    resolutions σ' =
      (resolutions σ ++ asked (CallOptions.micId o) (CallOptions.micLabel o) AudioIn)
      ++ asked (CallOptions.camId o) (CallOptions.camLabel o) Video ∧
    heap σ' !! options = Some (Options o) ∧
    (∀ l c, heap σ !! l = Some c →
       heap σ' !! l = Some c ∨
       ∃ m m', c = TrackConstraints m ∧ heap σ' !! l = Some (TrackConstraints m') ∧
               (∀ k, k ≠ "deviceId" → m' !! k = m !! k) ∧
               (CallOptions.audio o = Some (inr l) ∧ is_Some p1 ∨
                CallOptions.video o = Some (inr l) ∧ is_Some p2)) ∧
    (∀ l, CallOptions.audio o = Some (inr l) → MediaStreamConstraints.audio s = inr l) ∧
    (∀ l, CallOptions.video o = Some (inr l) → MediaStreamConstraints.video s = inr l) ∧
    (p1 = None → MediaStreamConstraints.audio s = default (inl true) (CallOptions.audio o)) ∧
    (p2 = None → MediaStreamConstraints.video s = default (inl false) (CallOptions.video o)) ∧
    (∀ l, MediaStreamConstraints.audio s = inr l →
          CallOptions.audio o = Some (inr l) ∨ new_in σ l) ∧
    (∀ l, MediaStreamConstraints.video s = inr l →
          CallOptions.video o = Some (inr l) ∨ new_in σ l) ∧
    (∀ l d, CallOptions.audio o = Some (inr l) → p1 = Some d →
       ∃ m', heap σ' !! l = Some (TrackConstraints m') ∧
             m' !! "deviceId" =
               Some (Exact match p2 with
                           | Some d' =>
                               if decide (CallOptions.video o = Some (inr l)) then d' else d
                           | None => d
                           end)) ∧
    (∀ l d, CallOptions.video o = Some (inr l) → p2 = Some d →
       ∃ m', heap σ' !! l = Some (TrackConstraints m') ∧ m' !! "deviceId" = Some (Exact d)).
Proof.
  intros Hwt p1 p2. pose proof Hwt as (Ho & Ha & Hv).
  pose proof (getMediaConstraints_run assureDeviceId _ _ _ Hwt) as Hrun.
  cbv zeta in Hrun. fold p1 p2 in Hrun.
  set (t1 := default (inl true) (CallOptions.audio o)) in *.
  set (n1 := narrowed (heap σ) t1 p1) in *.
  set (t2 := default (inl false) (CallOptions.video o)) in *.
  set (n2 := narrowed n1.2 t2 p2) in *.
  pose proof (narrowed_length (heap σ) t1 p1) as Hlen1. fold n1 in Hlen1.
  pose proof (narrowed_length n1.2 t2 p2) as Hlen2. fold n2 in Hlen2.
  destruct (narrowed_track (heap σ) t1 p1) as (Hk1 & Hd1 & He1). fold n1 in Hk1, Hd1, He1.
  destruct (narrowed_track n1.2 t2 p2) as (Hk2 & Hd2 & He2). fold n2 in Hk2, Hd2, He2.
  assert (Hstep : ∀ l c, heap σ !! l = Some c →
            n2.2 !! l =
            Some (let c1 := match p1 with
                            | Some d => if decide (t1 = inr l) then with_deviceId d c else c
                            | None => c
                            end in
                  match p2 with
                  | Some d => if decide (t2 = inr l) then with_deviceId d c1 else c1
                  | None => c1
                  end)).
  { intros l c Hl. unfold n2. apply narrowed_lookup. unfold n1. now apply narrowed_lookup. }
  eexists _, _, _. split; [exact Hrun |]. cbn [heap resolutions].
  split; [now rewrite list_lookup_middle |].
  split; [unfold new_in; lia |].
  split; [reflexivity |].
  split; [apply lookup_app_l_Some; unfold n2, n1; now do 2 apply narrowed_options |].
  cbn [MediaStreamConstraints.audio MediaStreamConstraints.video].
  split; [| split; [| split; [| split; [| split; [| split; [| split; [| split]]]]]]].
  - intros l c Hl. rewrite (lookup_app_l_Some _ _ _ _ (Hstep l c Hl)). cbv zeta.
    destruct c as [| | | | | | m |]; try (left; f_equal;
      destruct p1, p2; repeat destruct (decide _); reflexivity).
    destruct p1 as [d1 |], p2 as [d2 |]; repeat destruct (decide _);
      try (left; reflexivity); right; cbn [with_deviceId];
      eexists m, _; (split; [reflexivity |]); (split; [reflexivity |]);
      (split; [intros k Hk; now rewrite ?lookup_insert_ne by congruence |]);
      repeat match goal with H : _ = inr l |- _ => apply default_inr in H end;
      eauto.
  - intros l Hl. apply Hk1. now apply default_inr.
  - intros l Hl. apply Hk2. now apply default_inr.
  - exact Hd1.
  - exact Hd2.
  - intros l Hl. destruct (He1 l Hl) as [H | H]; [left; now apply default_inr in H | now right].
  - intros l Hl. destruct (He2 l Hl) as [H | H]; [left; now apply default_inr in H |].
    right. unfold new_in. lia.
  - intros l d Hl Hp. destruct (Ha l Hl) as [m Hm].
    rewrite (lookup_app_l_Some _ _ _ _ (Hstep l _ Hm)). cbv zeta.
    rewrite Hp, decide_True by now apply default_inr.
    cbn [with_deviceId].
    destruct p2 as [d2 |]; [| eexists; split; [reflexivity | now rewrite lookup_insert_eq]].
    destruct (decide (t2 = inr l)) as [Ht | Ht],
             (decide (CallOptions.video o = Some (inr l))) as [Hv' | Hv'];
      try (exfalso; apply Hv'; exact (proj1 (default_inr _ false _) Ht));
      try (exfalso; apply Ht; exact (proj2 (default_inr _ false _) Hv'));
      cbn [with_deviceId]; eexists; (split; [reflexivity |]); now rewrite lookup_insert_eq.
  - intros l d Hl Hp. destruct (Hv l Hl) as [m Hm].
    rewrite (lookup_app_l_Some _ _ _ _ (Hstep l _ Hm)). cbv zeta.
    rewrite Hp. destruct (decide (t2 = inr l)) as [_ | Hn];
      [| exfalso; apply Hn; now apply default_inr].
    destruct p1; [destruct (decide _) |]; cbn [with_deviceId]; eexists;
      (split; [reflexivity |]); now rewrite lookup_insert_eq.
Qed.

(** Replacing the options object commutes with [narrowed], the track not
    being the options object. *)
Lemma narrowed_insert h options X track p :
  options < length h →
  track ≠ inr options →
  narrowed (<[options := X]> h) track p =
  ((narrowed h track p).1, <[options := X]> (narrowed h track p).2).
Proof.
  intros Hlt Hne. destruct p as [d |]; [| reflexivity].
  destruct track as [b | l]; cbn [narrowed fst snd].
  - rewrite length_insert. f_equal. now rewrite insert_app_l.
  - assert (l ≠ options) by congruence.
    rewrite list_lookup_insert_ne by congruence. f_equal.
    destruct (h !! l); [| reflexivity]. apply list_insert_insert_ne. congruence.
Qed.

(** The run depends on the preferred ids through what they stand for and
    what is asked of the resolver only. *)
Lemma getMediaConstraints_same_preference assureDeviceId σ options o o' :
  well_typed_options σ options o →
  CallOptions.audio o' = CallOptions.audio o →
  CallOptions.video o' = CallOptions.video o →
  preferred assureDeviceId (CallOptions.micId o') (CallOptions.micLabel o') AudioIn =
    preferred assureDeviceId (CallOptions.micId o) (CallOptions.micLabel o) AudioIn →
  asked (CallOptions.micId o') (CallOptions.micLabel o') AudioIn =
    asked (CallOptions.micId o) (CallOptions.micLabel o) AudioIn →
  preferred assureDeviceId (CallOptions.camId o') (CallOptions.camLabel o') Video =
    preferred assureDeviceId (CallOptions.camId o) (CallOptions.camLabel o) Video →
  asked (CallOptions.camId o') (CallOptions.camLabel o') Video =
    asked (CallOptions.camId o) (CallOptions.camLabel o) Video →
  ∃ r σ',
    getMediaConstraints assureDeviceId options σ = (Normal r, σ') ∧
    getMediaConstraints assureDeviceId options (with_options options o' σ) =
      (Normal r, with_options options o' σ').
Proof.
  intros Hwt Ea Ev Ep1 Eq1 Ep2 Eq2. pose proof Hwt as (Ho & Ha & Hv).
  pose proof (lookup_lt_Some _ _ _ Ho) as Hlt.
  assert (Hnot : ∀ l m, heap σ !! l = Some (TrackConstraints m) → l ≠ options).
  { intros l m Hl ->. congruence. }
  assert (Hwt' : well_typed_options (with_options options o' σ) options o').
  { repeat split; cbn [with_options heap].
    - now apply list_lookup_insert_eq.
    - intros l Hl. rewrite Ea in Hl. destruct (Ha l Hl) as [m Hm].
      exists m. rewrite list_lookup_insert_ne; [exact Hm |].
      intros <-. congruence.
    - intros l Hl. rewrite Ev in Hl. destruct (Hv l Hl) as [m Hm].
      exists m. rewrite list_lookup_insert_ne; [exact Hm |].
      intros <-. congruence. }
  rewrite (getMediaConstraints_run _ _ _ _ Hwt), (getMediaConstraints_run _ _ _ _ Hwt').
  cbv zeta. rewrite Ea, Ev, Ep1, Eq1, Ep2, Eq2. cbn [with_options heap resolutions].
  set (p1 := preferred _ (CallOptions.micId o) _ _).
  set (p2 := preferred _ (CallOptions.camId o) _ _).
  set (t1 := default (inl true) (CallOptions.audio o)).
  set (t2 := default (inl false) (CallOptions.video o)).
  assert (Ht1 : t1 ≠ inr options).
  { intros H. apply default_inr in H. destruct (Ha _ H) as [m Hm]. congruence. }
  assert (Ht2 : t2 ≠ inr options).
  { intros H. apply default_inr in H. destruct (Hv _ H) as [m Hm]. congruence. }
  rewrite (narrowed_insert (heap σ) options _ t1 p1 Hlt Ht1). cbn [fst snd].
  pose proof (narrowed_length (heap σ) t1 p1) as Hl1.
  rewrite (narrowed_insert _ options _ t2 p2) by (assumption || lia). cbn [fst snd].
  pose proof (narrowed_length (narrowed (heap σ) t1 p1).2 t2 p2) as Hl2.
  eexists _, _. split; [reflexivity |].
  rewrite length_insert. unfold with_options. cbn [heap resolutions].
  rewrite insert_app_l by lia. reflexivity.
Qed.

(** C4, as the specification states it, fails: [getMediaConstraints] writes
    into the constraints object its caller passed as [audio] and returns
    that very object.  The caller's object at 0 has no [deviceId] before
    the call and has one after it; the [audio] of the result is the object
    at 0. *)
Lemma getMediaConstraints_writes_to_audio :
  let o := options_with (Some (inr 0)) (Some "mic-1") None in
  let σ := options_store o in
  well_typed_options σ 1 o ∧
  ∃ r σ' s m m',
    getMediaConstraints one_microphone 1 σ = (Normal r, σ') ∧
    heap σ !! 0 = Some (TrackConstraints m) ∧ m !! "deviceId" = None ∧
    heap σ' !! 0 = Some (TrackConstraints m') ∧
    m' !! "deviceId" = Some (Exact "device-1") ∧
    heap σ' !! 0 ≠ heap σ !! 0 ∧
    heap σ' !! r = Some (StreamConstraints s) ∧
    MediaStreamConstraints.audio s = inr 0.
Proof.
  cbv zeta. split.
  - repeat split; cbn; intros l [= <-]; eauto.
  - eexists _, _, _, _, _. split; [vm_compute; reflexivity |].
    repeat split. cbn. intros [=].
Qed.

(** C4, amended.  [mutateCanvasInfoData] changes no object that exists when
    it is called, and the canvas, the array and the layouts it returns are
    new objects.  [getMediaConstraints] leaves the options object as it is
    and returns a new object; but where [audio] (or [video]) is a constraints
    object of the caller and the preferred id stands for a device, it sets
    [deviceId] on that object in place to the exact id of that device, and
    the [audio] (or [video]) it returns is the caller's object whenever the
    caller passed one.  Where one object is passed as both [audio] and
    [video] and both ids stand for devices, its [deviceId] is the camera's,
    that write being the later one.  No other object changes, and of a
    changed object only [deviceId] does. *)
Theorem inputs_unchanged_but_deviceId :
  (∀ σ canvasInfo,
     objects_unchanged σ (mutateCanvasInfoData canvasInfo σ).2) ∧
  (∀ σ canvasInfo ci ls Ls,
     holds_canvas σ canvasInfo ci ls Ls →
     ∃ r σ' out outs,
       mutateCanvasInfoData canvasInfo σ = (Normal r, σ') ∧
       heap σ' !! r = Some (CanvasInfo out) ∧
       heap σ' !! ICanvasInfo.canvasLayouts out = Some (Array outs) ∧
       new_in σ r ∧ new_in σ (ICanvasInfo.canvasLayouts out) ∧
       Forall (new_in σ) outs) ∧
  (∀ assureDeviceId σ options o,
     well_typed_options σ options o →
     let microphone :=
       preferred assureDeviceId (CallOptions.micId o) (CallOptions.micLabel o) AudioIn in
     let camera :=
       preferred assureDeviceId (CallOptions.camId o) (CallOptions.camLabel o) Video in
     ∃ r σ' s,
       getMediaConstraints assureDeviceId options σ = (Normal r, σ') ∧
       heap σ' !! r = Some (StreamConstraints s) ∧
       new_in σ r ∧
       heap σ' !! options = Some (Options o) ∧
       (∀ l c, heap σ !! l = Some c →
          heap σ' !! l = Some c ∨
          ∃ m m', c = TrackConstraints m ∧ heap σ' !! l = Some (TrackConstraints m') ∧
                  (∀ k, k ≠ "deviceId" → m' !! k = m !! k) ∧
                  (CallOptions.audio o = Some (inr l) ∧ is_Some microphone ∨
                   CallOptions.video o = Some (inr l) ∧ is_Some camera)) ∧
       (∀ l d, CallOptions.audio o = Some (inr l) → microphone = Some d →
          ∃ m', heap σ' !! l = Some (TrackConstraints m') ∧
                m' !! "deviceId" =
                  Some (Exact match camera with
                              | Some d' =>
                                  if decide (CallOptions.video o = Some (inr l))
                                  then d' else d
                              | None => d
                              end)) ∧
       (∀ l d, CallOptions.video o = Some (inr l) → camera = Some d →
          ∃ m', heap σ' !! l = Some (TrackConstraints m') ∧
                m' !! "deviceId" = Some (Exact d)) ∧
       (∀ l, CallOptions.audio o = Some (inr l) → MediaStreamConstraints.audio s = inr l) ∧
       (∀ l, CallOptions.video o = Some (inr l) → MediaStreamConstraints.video s = inr l) ∧
       (∀ l, MediaStreamConstraints.audio s = inr l →
             CallOptions.audio o = Some (inr l) ∨ new_in σ l) ∧
       (∀ l, MediaStreamConstraints.video s = inr l →
             CallOptions.video o = Some (inr l) ∨ new_in σ l)).
Proof.
  split; [| split].
  - intros σ canvasInfo. apply preserves_objects_unchanged.
    now apply frame_mutateCanvasInfoData.
  - intros σ canvasInfo ci ls Ls H.
    destruct (mutateCanvasInfoData_result _ _ _ _ _ H)
      as (r & σ' & outs & Hrun & Hr & Ha & Hlen & Hout & Hnew & _).
    exists r, σ', (canvasInfo_of ci (length (heap σ)) (existsb overlaps Ls)), outs.
    repeat split; try assumption.
    + unfold new_in. cbn. lia.
    + apply Forall_lookup_2. intros i o Ho.
      destruct H as (_ & _ & HF). apply Forall2_length in HF.
      pose proof (lookup_lt_Some _ _ _ Ho) as Hlt.
      destruct (lookup_lt_is_Some_2 Ls i) as [L HL]; [lia |].
      destruct (Hout i L HL) as (o' & Ho' & Hn & _). congruence.
  - intros assureDeviceId σ options o Hwt microphone camera.
    destruct (getMediaConstraints_effect assureDeviceId _ _ _ Hwt)
      as (r & σ' & s & Hrun & Hr & Hn & _ & Ho & HA & HC & HC' & _ & _ & HE & HE' & HF & HG).
    exists r, σ', s. repeat split; assumption.
Qed.

Lemma inputs_unchanged_but_deviceId_witness :
  let o := options_with (Some (inr 0)) (Some "mic-1") None in
  let σ := options_store o in
  well_typed_options σ 1 o ∧
  ∃ r σ' s,
    getMediaConstraints one_microphone 1 σ = (Normal r, σ') ∧
    heap σ' !! r = Some (StreamConstraints s) ∧
    heap σ' !! 1 = Some (Options o) ∧
    MediaStreamConstraints.audio s = inr 0 ∧
    ∃ m', heap σ' !! 0 = Some (TrackConstraints m') ∧
          m' !! "deviceId" = Some (Exact "device-1").
Proof.
  cbv zeta.
  assert (Hwt : well_typed_options
                  (options_store (options_with (Some (inr 0)) (Some "mic-1") None)) 1
                  (options_with (Some (inr 0)) (Some "mic-1") None)).
  { repeat split; cbn; intros l [= <-]; eauto. }
  split; [exact Hwt |].
  destruct (proj2 (proj2 inputs_unchanged_but_deviceId) one_microphone _ _ _ Hwt)
    as (r & σ' & s & Hrun & Hr & _ & Ho & _ & Hid & _ & Ha & _).
  exists r, σ', s.
  split; [exact Hrun |]. split; [exact Hr |]. split; [exact Ho |].
  split; [now apply Ha |].
  exact (Hid 0 "device-1" eq_refl eq_refl).
Defined.

(** C9.  When a [micId] is supplied and the resolution of the device id
    rejects, [getMediaConstraints] does not throw, and the [audio] it returns
    is the caller's, or [true] where the caller gave none; the object it
    refers to, if any, is as before unless it is the [video] object as well.
    The same holds for [camId] and [video], with [false] for a [video] that
    is absent.  Without a preferred id the same values are returned. *)
Theorem getMediaConstraints_resolution_rejected assureDeviceId σ options o :
  well_typed_options σ options o →
  ∃ r σ' s,
    getMediaConstraints assureDeviceId options σ = (Normal r, σ') ∧
    heap σ' !! r = Some (StreamConstraints s) ∧
    (∀ micId,
       CallOptions.micId o = Some micId →
       assureDeviceId micId (default "" (CallOptions.micLabel o)) AudioIn = None →
       MediaStreamConstraints.audio s = default (inl true) (CallOptions.audio o) ∧
       (CallOptions.audio o = None → MediaStreamConstraints.audio s = inl true) ∧
       ∀ l c, MediaStreamConstraints.audio s = inr l →
              CallOptions.video o ≠ Some (inr l) →
              heap σ !! l = Some c → heap σ' !! l = Some c) ∧
    (∀ camId,
       CallOptions.camId o = Some camId →
       assureDeviceId camId (default "" (CallOptions.camLabel o)) Video = None →
       MediaStreamConstraints.video s = default (inl false) (CallOptions.video o) ∧
       (CallOptions.video o = None → MediaStreamConstraints.video s = inl false) ∧
       ∀ l c, MediaStreamConstraints.video s = inr l →
              CallOptions.audio o ≠ Some (inr l) →
              heap σ !! l = Some c → heap σ' !! l = Some c) ∧
    (CallOptions.micId o = None →
     MediaStreamConstraints.audio s = default (inl true) (CallOptions.audio o)) ∧
    (CallOptions.camId o = None →
     MediaStreamConstraints.video s = default (inl false) (CallOptions.video o)).
Proof.
  intros Hwt.
  destruct (getMediaConstraints_effect assureDeviceId _ _ _ Hwt)
    as (r & σ' & s & Hrun & Hr & _ & _ & _ & HA & _ & _ & HD & HD' & _).
  exists r, σ', s. split; [exact Hrun |]. split; [exact Hr |].
  split; [| split; [| split]].
  - intros micId Hid Hrej.
    assert (Hp : preferred assureDeviceId (CallOptions.micId o) (CallOptions.micLabel o)
                   AudioIn = None).
    { unfold preferred. rewrite Hid, Hrej. now destruct (JsString.truthy micId). }
    split; [now apply HD |]. split; [intros Hn; rewrite (HD Hp), Hn; reflexivity |].
    intros l c Hs Hv Hl. destruct (HA l c Hl) as [H | (m & m' & _ & _ & _ & [[_ H] | [H _]])].
    + exact H.
    + rewrite Hp in H. now destruct H.
    + contradiction.
  - intros camId Hid Hrej.
    assert (Hp : preferred assureDeviceId (CallOptions.camId o) (CallOptions.camLabel o)
                   Video = None).
    { unfold preferred. rewrite Hid, Hrej. now destruct (JsString.truthy camId). }
    split; [now apply HD' |]. split; [intros Hn; rewrite (HD' Hp), Hn; reflexivity |].
    intros l c Hs Hv Hl. destruct (HA l c Hl) as [H | (m & m' & _ & _ & _ & [[H _] | [_ H]])].
    + exact H.
    + contradiction.
    + rewrite Hp in H. now destruct H.
  - intros Hid. apply HD. unfold preferred. now rewrite Hid.
  - intros Hid. apply HD'. unfold preferred. now rewrite Hid.
Qed.

Lemma getMediaConstraints_resolution_rejected_witness :
  let o := options_with None (Some "bad-id") None in
  let σ := options_store o in
  well_typed_options σ 1 o ∧
  no_device "bad-id" "" AudioIn = None ∧
  ∃ r σ' s,
    getMediaConstraints no_device 1 σ = (Normal r, σ') ∧
    heap σ' !! r = Some (StreamConstraints s) ∧
    MediaStreamConstraints.audio s = inl true ∧
    MediaStreamConstraints.video s = inl false.
Proof.
  cbv zeta.
  assert (Hwt : well_typed_options (options_store (options_with None (Some "bad-id") None)) 1
                  (options_with None (Some "bad-id") None)).
  { repeat split; cbn; intros l [=]. }
  split; [exact Hwt |]. split; [reflexivity |].
  destruct (getMediaConstraints_resolution_rejected no_device _ _ _ Hwt)
    as (r & σ' & s & Hrun & Hr & Hmic & _ & _ & Hcam).
  exists r, σ', s. split; [exact Hrun |]. split; [exact Hr |]. split.
  - now apply (Hmic "bad-id").
  - now apply Hcam.
Defined.

(** C10.  With the empty string as [micId], [getMediaConstraints] asks for no
    resolution of an audio input, returns the [audio] of the caller (or
    [true]), and does what it does without a [micId]: the same completion and
    the same store, the options object apart.  The same holds for [camId]
    and [video]. *)
Theorem getMediaConstraints_empty_id assureDeviceId σ options o :
  well_typed_options σ options o →
  ∃ r σ' s,
    getMediaConstraints assureDeviceId options σ = (Normal r, σ') ∧
    heap σ' !! r = Some (StreamConstraints s) ∧
    (CallOptions.micId o = Some "" →
       (∀ id label, (id, label, AudioIn) ∈ resolutions σ' →
                    (id, label, AudioIn) ∈ resolutions σ) ∧
       MediaStreamConstraints.audio s = default (inl true) (CallOptions.audio o) ∧
       getMediaConstraints assureDeviceId options
         (with_options options (without_micId o) σ) =
         (Normal r, with_options options (without_micId o) σ')) ∧
    (CallOptions.camId o = Some "" →
       (∀ id label, (id, label, Video) ∈ resolutions σ' →
                    (id, label, Video) ∈ resolutions σ) ∧
       MediaStreamConstraints.video s = default (inl false) (CallOptions.video o) ∧
       getMediaConstraints assureDeviceId options
         (with_options options (without_camId o) σ) =
         (Normal r, with_options options (without_camId o) σ')).
Proof.
  intros Hwt.
  destruct (getMediaConstraints_effect assureDeviceId _ _ _ Hwt)
    as (r & σ' & s & Hrun & Hr & _ & Hlog & _ & _ & _ & _ & HD & HD' & _).
  exists r, σ', s. split; [exact Hrun |]. split; [exact Hr |]. split.
  - intros Hid. split; [| split].
    + intros id label. rewrite Hlog, Hid. cbn [asked JsString.truthy].
      rewrite app_nil_r, elem_of_app. intros [H | H]; [exact H |].
      unfold asked in H. destruct (CallOptions.camId o) as [i |]; [| inversion H].
      destruct (JsString.truthy i); [| inversion H].
      apply list_elem_of_singleton in H. discriminate.
    + apply HD. unfold preferred. now rewrite Hid.
    + destruct (getMediaConstraints_same_preference assureDeviceId σ options o
                  (without_micId o) Hwt) as (r' & σ'' & Hrun' & Hsame);
        try reflexivity; try (cbn; rewrite Hid; reflexivity).
      rewrite Hrun in Hrun'. now injection Hrun' as -> ->.
  - intros Hid. split; [| split].
    + intros id label. rewrite Hlog, Hid. cbn [asked JsString.truthy].
      rewrite app_nil_r, elem_of_app. intros [H | H]; [exact H |].
      unfold asked in H. destruct (CallOptions.micId o) as [i |]; [| inversion H].
      destruct (JsString.truthy i); [| inversion H].
      apply list_elem_of_singleton in H. discriminate.
    + apply HD'. unfold preferred. now rewrite Hid.
    + destruct (getMediaConstraints_same_preference assureDeviceId σ options o
                  (without_camId o) Hwt) as (r' & σ'' & Hrun' & Hsame);
        try reflexivity; try (cbn; rewrite Hid; reflexivity).
      rewrite Hrun in Hrun'. now injection Hrun' as -> ->.
Qed.

Lemma getMediaConstraints_empty_id_witness :
  let o := options_with (Some (inr 0)) (Some "") None in
  let σ := options_store o in
  well_typed_options σ 1 o ∧
  ∃ r σ' s,
    getMediaConstraints one_microphone 1 σ = (Normal r, σ') ∧
    heap σ' !! r = Some (StreamConstraints s) ∧
    MediaStreamConstraints.audio s = inr 0 ∧
    ∀ id label, (id, label, AudioIn) ∉ resolutions σ'.
Proof.
  cbv zeta.
  assert (Hwt : well_typed_options (options_store (options_with (Some (inr 0)) (Some "") None))
                  1 (options_with (Some (inr 0)) (Some "") None)).
  { repeat split; cbn; intros l [= <-]; eauto. }
  split; [exact Hwt |].
  destruct (getMediaConstraints_empty_id one_microphone _ _ _ Hwt)
    as (r & σ' & s & Hrun & Hr & Hmic & _).
  destruct (Hmic eq_refl) as (Hlog & Ha & _).
  exists r, σ', s. split; [exact Hrun |]. split; [exact Hr |]. split; [exact Ha |].
  intros id label H. apply Hlog in H. inversion H.
Defined.

(** ** Strings and sorting *)

Lemma ascii_compare_refl (c : ascii) : Ascii.compare c c = Eq.
Proof. apply N.compare_refl. Qed.

Lemma string_compare_refl (s : string) : String.compare s s = Eq.
Proof.
  induction s as [|c s IH]; [reflexivity |].
  cbn. now rewrite ascii_compare_refl.
Qed.

Lemma string_compare_lt_trans (a b c : string) :
  String.compare a b = Lt → String.compare b c = Lt → String.compare a c = Lt.
Proof.
  revert b c. induction a as [|x a IH]; intros [|y b] [|z c]; cbn; try congruence.
  unfold Ascii.compare.
  destruct (N.compare_spec (N_of_ascii x) (N_of_ascii y)) as [Exy | Lxy | Gxy];
    try discriminate;
    destruct (N.compare_spec (N_of_ascii y) (N_of_ascii z)) as [Eyz | Lyz | Gyz];
    try discriminate; intros H1 H2.
  - rewrite Exy, Eyz, N.compare_refl. eauto.
  - rewrite Exy. now apply N.compare_lt_iff in Lyz as ->.
  - rewrite <- Eyz. now apply N.compare_lt_iff in Lxy as ->.
  - assert (H : (N_of_ascii x < N_of_ascii z)%N) by lia.
    now apply N.compare_lt_iff in H as ->.
Qed.

Lemma string_compare_gt_lt (a b : string) :
  String.compare a b = Gt ↔ String.compare b a = Lt.
Proof.
  rewrite (String.compare_antisym b a). destruct (String.compare a b); cbn; split; congruence.
Qed.

(** The order of the sorted catalog: not above, by the sort key. *)
Lemma not_gt_trans (a b c : string) :
  String.compare a b ≠ Gt → String.compare b c ≠ Gt → String.compare a c ≠ Gt.
Proof.
  intros Hab Hbc Hac. apply string_compare_gt_lt in Hac.
  destruct (String.compare a b) eqn:Eab; [| | congruence].
  - apply String.compare_eq_iff in Eab as ->. apply string_compare_gt_lt in Hac. congruence.
  - destruct (String.compare b c) eqn:Ebc; [| | congruence].
    + apply String.compare_eq_iff in Ebc as ->.
      apply string_compare_gt_lt in Hac. congruence.
    + pose proof (string_compare_lt_trans _ _ _ Hac Eab) as Hcb.
      apply string_compare_gt_lt in Hcb. congruence.
Qed.

Lemma _layoutCompare_positive (a b : ILayout.t) :
  (0 <? _layoutCompare a b)%Z = true ↔ String.compare (sort_key a) (sort_key b) = Gt.
Proof.
  unfold _layoutCompare, JsString.gt, JsString.lt, sort_key.
  destruct (String.compare _ _); cbn; split; congruence.
Qed.

Section SortFacts.
Context {A : Type} (comparefn : A → A → Z).

Lemma sort_insert_perm a l : sort_insert comparefn a l ≡ₚ a :: l.
Proof.
  induction l as [|b l IH]; [reflexivity |]. cbn.
  destruct (0 <? comparefn a b)%Z; [| reflexivity].
  rewrite IH. apply perm_swap.
Qed.

Lemma sort_perm l : sort comparefn l ≡ₚ l.
Proof.
  induction l as [|a l IH]; [reflexivity |]. cbn.
  now rewrite sort_insert_perm, IH.
Qed.

(** Elements that the comparison never puts one after the other keep their
    order: the sort is stable. *)
Lemma sort_insert_stable (P : A → Prop) `{!∀ x, Decision (P x)} a l :
  (∀ x y, P x → P y → (0 <? comparefn x y)%Z = false) →
  filter P (sort_insert comparefn a l) = filter P (a :: l).
Proof.
  intros HP. induction l as [|b l IH]; [reflexivity |]. cbn [sort_insert].
  destruct (0 <? comparefn a b)%Z eqn:E; [| reflexivity].
  rewrite (filter_cons P b), IH, !(filter_cons P a), (filter_cons P b).
  destruct (decide (P a)) as [Ha |], (decide (P b)) as [Hb |]; try reflexivity.
  rewrite (HP a b Ha Hb) in E. discriminate.
Qed.

Lemma sort_stable (P : A → Prop) `{!∀ x, Decision (P x)} l :
  (∀ x y, P x → P y → (0 <? comparefn x y)%Z = false) →
  filter P (sort comparefn l) = filter P l.
Proof.
  intros HP. induction l as [|a l IH]; [reflexivity |]. cbn [sort].
  rewrite sort_insert_stable by assumption.
  now rewrite !(filter_cons P a), IH.
Qed.

(** With a comparison that is a total preorder the result is sorted. *)
Context (le : A → A → Prop).
Hypothesis le_not_after : ∀ a b, (0 <? comparefn a b)%Z = false → le a b.
Hypothesis le_after : ∀ a b, (0 <? comparefn a b)%Z = true → le b a.
Hypothesis le_trans : ∀ a b c, le a b → le b c → le a c.

Lemma sort_insert_sorted a l :
  StronglySorted le l → StronglySorted le (sort_insert comparefn a l).
Proof.
  induction 1 as [|b l Hl IH Hb]; cbn [sort_insert].
  - repeat constructor.
  - destruct (0 <? comparefn a b)%Z eqn:E.
    + constructor; [exact IH |].
      rewrite sort_insert_perm. constructor; [now apply le_after | exact Hb].
    + constructor; [now constructor |].
      apply le_not_after in E. constructor; [exact E |].
      eapply Forall_impl; [exact Hb |]. intros c Hc. now apply (le_trans _ b).
Qed.

Lemma sort_sorted l : StronglySorted le (sort comparefn l).
Proof.
  induction l as [|a l IH]; [constructor |]. cbn [sort]. now apply sort_insert_sorted.
Qed.

End SortFacts.

(** ** The layout catalog *)

Lemma _layoutReducer_entry result layout :
  _layoutReducer result layout = result ++ [entry_of layout].
Proof. reflexivity. Qed.

Lemma fold_layoutReducer layouts : ∀ result,
  fold_left _layoutReducer layouts result = result ++ map entry_of layouts.
Proof.
  induction layouts as [|l layouts IH]; intros result; cbn.
  - now rewrite app_nil_r.
  - rewrite IH, _layoutReducer_entry, <- app_assoc. reflexivity.
Qed.

Lemma groupList_map groups : groupList groups = map entry_of groups.
Proof. unfold groupList. now rewrite fold_layoutReducer. Qed.

Lemma normalList_map layouts groups :
  normalList layouts groups =
  map (λ l, set_belongsToAGroup
              (includes (layoutsPartOfGroup groups) (IVertoLayout.name l)) (entry_of l))
      layouts.
Proof.
  unfold normalList. rewrite fold_layoutReducer. cbn [app].
  now rewrite map_map.
Qed.

Lemma fold_groupLayouts groups : ∀ cumulative s,
  s ∈ fold_left (λ cumulative layout,
                   cumulative ++ default [] (IVertoLayout.groupLayouts layout))
                groups cumulative ↔
  s ∈ cumulative ∨ ∃ g, g ∈ groups ∧ s ∈ default [] (IVertoLayout.groupLayouts g).
Proof.
  induction groups as [|g groups IH]; intros cumulative s; cbn [fold_left].
  - split; [auto |]. intros [H | (g & Hg & _)]; [exact H | inversion Hg].
  - rewrite IH, elem_of_app. split.
    + intros [[H | H] | (g' & Hg' & H)]; eauto using list_elem_of_here.
      right. exists g'. split; [now apply list_elem_of_further | exact H].
    + intros [H | (g' & Hg' & H)]; [auto |].
      apply elem_of_cons in Hg' as [-> | Hg']; eauto.
Qed.

Lemma includes_layoutsPartOfGroup groups s :
  includes (layoutsPartOfGroup groups) s = true ↔
  ∃ g, g ∈ groups ∧ s ∈ default [] (IVertoLayout.groupLayouts g).
Proof.
  unfold includes, layoutsPartOfGroup. rewrite existsb_exists. split.
  - intros (x & Hx & Heq). apply String.eqb_eq in Heq as <-.
    apply list_elem_of_In, fold_groupLayouts in Hx as [Hx | Hx]; [inversion Hx | exact Hx].
  - intros H. exists s. split; [| apply String.eqb_refl].
    apply list_elem_of_In, fold_groupLayouts. now right.
Qed.

Lemma truthy_nonempty (s : string) : JsString.truthy s = true ↔ s ≠ "".
Proof. destruct s; cbn; split; congruence. Qed.

Lemma replace_dash_underscore_length (s : string) :
  String.length (JsString.replace_dash_underscore s) = String.length s.
Proof. induction s as [|c s IH]; cbn; [reflexivity | now rewrite IH]. Qed.

Lemma replace_dash_underscore_get (s : string) : ∀ i c,
  String.get i s = Some c →
  String.get i (JsString.replace_dash_underscore s) =
  Some (if (Ascii.eqb c "-" || Ascii.eqb c "_")%bool then " "%char else c).
Proof.
  induction s as [|x s IH]; intros [|i] c; cbn; try discriminate.
  - now intros [= ->].
  - apply IH.
Qed.

Lemma mungeLayoutList_perm layouts groups :
  mungeLayoutList layouts groups ≡ₚ groupList groups ++ normalList layouts groups.
Proof. apply sort_perm. Qed.

(** C5.  The catalog is a rearrangement of the entries made of the groups and
    of those made of the flat layouts.  The entry made of a flat layout has
    [belongsToAGroup] true exactly when the name of the layout is in the
    [groupLayouts] of some group (however often it is there); the entry made
    of a group has it false.  The layout "room-1" of a group that lists it
    twice belongs to a group, "room-2" and the group itself do not. *)
Theorem mungeLayoutList_belongsToAGroup layouts groups :
  mungeLayoutList layouts groups ≡ₚ groupList groups ++ normalList layouts groups ∧
  Forall2 (λ layout e,
             ILayout.id e = IVertoLayout.name layout ∧
             (ILayout.belongsToAGroup e = true ↔
              ∃ g, g ∈ groups ∧
                   IVertoLayout.name layout ∈ default [] (IVertoLayout.groupLayouts g)))
          layouts (normalList layouts groups) ∧
  Forall2 (λ group e,
             ILayout.id e = IVertoLayout.name group ∧ ILayout.belongsToAGroup e = false)
          groups (groupList groups) ∧
  map (λ e, (ILayout.id e, ILayout.belongsToAGroup e))
      (mungeLayoutList [raw_flat "room-1" None; raw_flat "room-2" None]
                       [raw_group "room-1" None ["room-1"; "room-1"]]) =
  [("room-1", false); ("room-1", true); ("room-2", false)].
Proof.
  split; [apply mungeLayoutList_perm |]. split; [| split].
  - rewrite normalList_map. apply Forall2_fmap_r, Forall_Forall2_diag, Forall_forall.
    intros layout _. cbn. split; [reflexivity |]. apply includes_layoutsPartOfGroup.
  - rewrite groupList_map. apply Forall2_fmap_r, Forall_Forall2_diag, Forall_forall.
    intros group _. split; reflexivity.
  - vm_compute. reflexivity.
Qed.

(** C6.  The catalog is sorted by the lower-cased label, in the
    lexicographic order of the code units, and the sort is stable: the
    entries with one lower-cased label are in the order they have in the
    list of the group entries followed by the flat entries.  The labels
    "Beta", "alpha", "Beta" come out as "alpha", "Beta", "Beta" with the two
    "Beta" entries in their input order, after a group labelled "beta". *)
Theorem mungeLayoutList_sorted_stable layouts groups :
  StronglySorted (λ a b, String.compare (sort_key a) (sort_key b) ≠ Gt)
                 (mungeLayoutList layouts groups) ∧
  (∀ k, filter (λ e, sort_key e = k) (mungeLayoutList layouts groups) =
        filter (λ e, sort_key e = k) (groupList groups ++ normalList layouts groups)) ∧
  map (λ e, (ILayout.id e, ILayout.label e))
      (mungeLayoutList [raw_flat "b1" (Some "Beta"); raw_flat "a" (Some "alpha");
                        raw_flat "b2" (Some "Beta")] []) =
  [("a", "alpha"); ("b1", "Beta"); ("b2", "Beta")] ∧
  map (λ e, (ILayout.id e, ILayout.label e))
      (mungeLayoutList [raw_flat "b1" (Some "Beta"); raw_flat "a" (Some "alpha");
                        raw_flat "b2" (Some "Beta")]
                       [raw_group "g" (Some "beta") []]) =
  [("a", "alpha"); ("g", "beta"); ("b1", "Beta"); ("b2", "Beta")].
Proof.
  split; [| split; [| split; vm_compute; reflexivity]].
  - apply sort_sorted.
    + intros a b E Hgt. apply _layoutCompare_positive in Hgt. congruence.
    + intros a b E. apply _layoutCompare_positive, string_compare_gt_lt in E. congruence.
    + intros a b c. apply not_gt_trans.
  - intros k. apply sort_stable. intros x y Hx Hy.
    destruct (0 <? _layoutCompare x y)%Z eqn:E; [| reflexivity].
    apply _layoutCompare_positive in E. rewrite Hx, Hy, string_compare_refl in E.
    discriminate.
Qed.

(** C7.  The catalog has one entry for each layout and each group, whatever
    their names: its length is the sum of the two lengths, also when one of
    the arrays or both are empty, and its ids are the names of the groups and
    of the layouts, each as often as it is given. *)
Theorem mungeLayoutList_length layouts groups :
  length (mungeLayoutList layouts groups) = length layouts + length groups ∧
  map ILayout.id (mungeLayoutList layouts groups) ≡ₚ
    map IVertoLayout.name groups ++ map IVertoLayout.name layouts ∧
  length (mungeLayoutList layouts []) = length layouts ∧
  length (mungeLayoutList [] groups) = length groups ∧
  mungeLayoutList [] [] = [] ∧
  length (mungeLayoutList [raw_flat "same" None; raw_flat "same" None]
                          [raw_group "same" None []]) = 3.
Proof.
  assert (Hlen : ∀ ls gs, length (mungeLayoutList ls gs) = length ls + length gs).
  { intros ls gs. rewrite (Permutation_length (mungeLayoutList_perm ls gs)).
    rewrite List.length_app, groupList_map, normalList_map, !List.length_map. lia. }
  split; [apply Hlen |]. split; [| split; [| split; [| split]]].
  - rewrite (mungeLayoutList_perm layouts groups), map_app.
    rewrite groupList_map, normalList_map, !map_map. reflexivity.
  - rewrite Hlen. cbn. lia.
  - now rewrite Hlen.
  - reflexivity.
  - reflexivity.
Qed.

(** C8, as the specification states it, fails for a [displayName] that is
    supplied but empty: the label is made of the name then. *)
Lemma empty_displayName_is_not_the_label :
  let layout := raw_flat "2x2_grid" (Some "") in
  IVertoLayout.displayName layout = Some "" ∧
  map ILayout.label (_layoutReducer [] layout) = ["2x2 grid"] ∧
  map ILayout.label (mungeLayoutList [layout] []) = ["2x2 grid"] ∧
  map ILayout.label (mungeLayoutList [] [layout]) = ["2x2 grid"] ∧
  ¬ (∀ layout d e,
       IVertoLayout.displayName layout = Some d →
       _layoutReducer [] layout = [e] → ILayout.label e = d).
Proof.
  cbv zeta. repeat split.
  intros H. specialize (H (raw_flat "2x2_grid" (Some "")) "" _ eq_refl eq_refl).
  discriminate.
Qed.

(** C8, amended.  The label of the entry made of a layout or of a group is
    its [displayName] when one is supplied that is not empty; otherwise
    (none, or the empty string) it is its name with every hyphen and every
    underscore replaced by a space.  The name "2x2_grid" without a
    [displayName] gives "2x2 grid", with the [displayName] "Grid View" it
    gives "Grid View". *)
Theorem catalog_labels layouts groups :
  let labelled (raw : IVertoLayout.t) (e : ILayout.t) : Prop :=
    ILayout.id e = IVertoLayout.name raw ∧
    (∀ d, IVertoLayout.displayName raw = Some d → d ≠ "" → ILayout.label e = d) ∧
    (IVertoLayout.displayName raw = None ∨ IVertoLayout.displayName raw = Some "" →
     String.length (ILayout.label e) = String.length (IVertoLayout.name raw) ∧
     ∀ i c, String.get i (IVertoLayout.name raw) = Some c →
            String.get i (ILayout.label e) =
            Some (if (Ascii.eqb c "-" || Ascii.eqb c "_")%bool then " "%char else c)) in
  (∀ result raw, ∃ e, _layoutReducer result raw = result ++ [e] ∧ labelled raw e) ∧
  Forall2 labelled layouts (normalList layouts groups) ∧
  Forall2 labelled groups (groupList groups) ∧
  mungeLayoutList layouts groups ≡ₚ groupList groups ++ normalList layouts groups ∧
  map ILayout.label (mungeLayoutList [raw_flat "2x2_grid" None] []) = ["2x2 grid"] ∧
  map ILayout.label (mungeLayoutList [raw_flat "2x2_grid" (Some "Grid View")] []) =
    ["Grid View"].
Proof.
  intros labelled.
  assert (Hentry : ∀ raw b, labelled raw (set_belongsToAGroup b (entry_of raw))).
  { intros raw b. split; [reflexivity |]. cbn [set_belongsToAGroup entry_of ILayout.label].
    split.
    - intros d -> Hd. apply truthy_nonempty in Hd. now rewrite Hd.
    - intros H.
      assert (E : match IVertoLayout.displayName raw with
                  | Some d => if JsString.truthy d then d
                              else JsString.replace_dash_underscore (IVertoLayout.name raw)
                  | None => JsString.replace_dash_underscore (IVertoLayout.name raw)
                  end = JsString.replace_dash_underscore (IVertoLayout.name raw)).
      { destruct H as [-> | ->]; reflexivity. }
      rewrite E. split;
        [apply replace_dash_underscore_length | apply replace_dash_underscore_get]. }
  split; [| split; [| split; [| split; [apply mungeLayoutList_perm | split; reflexivity]]]].
  - intros result raw. exists (entry_of raw). split; [reflexivity |].
    apply (Hentry raw false).
  - rewrite normalList_map. apply Forall2_fmap_r, Forall_Forall2_diag, Forall_forall.
    intros raw _. apply Hentry.
  - rewrite groupList_map. apply Forall2_fmap_r, Forall_Forall2_diag, Forall_forall.
    intros raw _. apply (Hentry raw false).
Qed.

(** * Further properties of helpers.ts *)

(** ** mutateCanvasInfoData: what an entry keeps of its raw layout *)

Lemma layout_rest_removed L key :
  key ∈ ["memberID"; "audioPOS"; "xPOS"; "yPOS"] → layout_rest L !! key = None.
Proof.
  intros H. unfold layout_rest.
  repeat (apply elem_of_cons in H as [-> | H]);
    [| | | | inversion H];
    rewrite !lookup_insert_ne by discriminate;
    repeat (rewrite lookup_delete_eq || rewrite lookup_delete_ne by discriminate);
    reflexivity.
Qed.

(** X1.  The entry made of a raw layout keeps the layout's [x], [y],
    [scale] and [hscale], and every further property of the layout under
    its name and with its value.  It has [audioPOS], [xPOS] and [yPOS]
    under the names [audioPos], [xPos] and [yPos], unless the layout has a
    property of that very name, which then stays; it has no property named
    [memberID], [audioPOS], [xPOS] or [yPOS]. *)
Theorem mutateCanvasInfoData_passthrough σ canvasInfo ci ls Ls :
  holds_canvas σ canvasInfo ci ls Ls →
  ∃ r σ' out outs,
    mutateCanvasInfoData canvasInfo σ = (Normal r, σ') ∧
    heap σ' !! r = Some (CanvasInfo out) ∧
    heap σ' !! ICanvasInfo.canvasLayouts out = Some (Array outs) ∧
    ∀ i L, Ls !! i = Some L →
      ∃ o O,
        outs !! i = Some o ∧ heap σ' !! o = Some (CanvasLayout O) ∧
        let own key := IVertoCanvasLayout.others L !! key in
        O !! "x" = Some (Number (IVertoCanvasLayout.x L)) ∧
        O !! "y" = Some (Number (IVertoCanvasLayout.y L)) ∧
        O !! "scale" = Some (Number (IVertoCanvasLayout.scale L)) ∧
        O !! "hscale" = Some (Number (IVertoCanvasLayout.hscale L)) ∧
        O !! "audioPos" = Some (default (IVertoCanvasLayout.audioPOS L) (own "audioPos")) ∧
        O !! "xPos" = Some (default (IVertoCanvasLayout.xPOS L) (own "xPos")) ∧
        O !! "yPos" = Some (default (IVertoCanvasLayout.yPOS L) (own "yPos")) ∧
        (∀ key, key ∈ ["memberID"; "audioPOS"; "xPOS"; "yPOS"] → O !! key = None) ∧
        (∀ key v,
           key ∉ ["x"; "y"; "scale"; "hscale"; "overlap";
                  "memberID"; "audioPOS"; "xPOS"; "yPOS"] →
           own key = Some v → O !! key = Some v).
Proof.
  intros H.
  destruct (mutateCanvasInfoData_result _ _ _ _ _ H)
    as (r & σ' & outs & Hrun & Hr & Ha & Hlen & Hout & _).
  exists r, σ', (canvasInfo_of ci (length (heap σ)) (existsb overlaps Ls)), outs.
  split; [exact Hrun |]. split; [exact Hr |]. split; [exact Ha |].
  intros i L Hi. destruct (Hout i L Hi) as (o & Ho & _ & HO).
  exists o, (canvasLayout (IVertoCanvasInfo.scale ci) L).
  split; [exact Ho |]. split; [exact HO |]. cbv zeta.
  repeat split;
    try (apply canvasLayout_computed; (discriminate || reflexivity));
    try (unfold canvasLayout; apply lookup_union_Some_l; unfold layout_rest;
         rewrite ?lookup_insert_ne by discriminate; now rewrite lookup_insert_eq).
  - intros key Hkey. unfold canvasLayout. apply lookup_union_None. split.
    + now apply layout_rest_removed.
    + repeat (apply elem_of_cons in Hkey as [-> | Hkey]); [| | | | inversion Hkey];
        reflexivity.
  - intros key v Hkey Hown. unfold canvasLayout. apply lookup_union_Some_l.
    rewrite layout_rest_other; [exact Hown | | | | | | | | |];
      intros ->; apply Hkey; repeat constructor.
Qed.

Lemma mutateCanvasInfoData_passthrough_witness :
  let σ := canvas_store 200 (Number 0) (Number 0) (Number 1) in
  holds_canvas σ 4 (raw_canvas 200 0) [1; 2; 3]
    (three_layouts (Number 0) (Number 0) (Number 1)) ∧
  ∃ r σ' o O,
    mutateCanvasInfoData 4 σ = (Normal r, σ') ∧
    heap σ' !! o = Some (CanvasLayout O) ∧
    O !! "x" = Some (Number 50) ∧ O !! "audioPos" = Some (Str "0:0:0") ∧
    O !! "zoom" = Some (Number 1) ∧ O !! "memberID" = None.
Proof.
  assert (Hc : holds_canvas (canvas_store 200 (Number 0) (Number 0) (Number 1)) 4
                 (raw_canvas 200 0) [1; 2; 3]
                 (three_layouts (Number 0) (Number 0) (Number 1))).
  { repeat split; repeat constructor. }
  split; [exact Hc |].
  destruct (mutateCanvasInfoData_passthrough _ _ _ _ _ Hc)
    as (r & σ' & out & outs & Hrun & _ & _ & Hout).
  destruct (Hout 0 _ eq_refl)
    as (o & O & _ & HO & Hx & _ & _ & _ & Hpos & _ & _ & Hno & Hown).
  exists r, σ', o, O. split; [exact Hrun |]. split; [exact HO |].
  split; [exact Hx |]. split; [exact Hpos |]. split.
  - apply Hown; [| reflexivity].
    apply (bool_decide_unpack _). vm_compute. exact I.
  - apply Hno. repeat constructor.
Defined.

(** X2.  The canvas returned has the [canvasID], the [layoutFloorID] and the
    [scale] of the raw canvas (the first two as [canvasId] and
    [layoutFloorId]); a further property of the raw canvas is kept unless
    its name is that of a property the literal writes after the spread, and
    the raw names [canvasID], [layoutFloorID] and [canvasLayouts] are not
    among the further properties of the result. *)
Theorem mutateCanvasInfoData_canvas σ canvasInfo ci ls Ls :
  holds_canvas σ canvasInfo ci ls Ls →
  ∃ r σ' out,
    mutateCanvasInfoData canvasInfo σ = (Normal r, σ') ∧
    heap σ' !! r = Some (CanvasInfo out) ∧
    ICanvasInfo.canvasId out = IVertoCanvasInfo.canvasID ci ∧
    ICanvasInfo.layoutFloorId out = IVertoCanvasInfo.layoutFloorID ci ∧
    ICanvasInfo.scale out = IVertoCanvasInfo.scale ci ∧
    (∀ key,
       ICanvasInfo.others out !! key =
       if bool_decide (key ∈ ["canvasID"; "layoutFloorID"; "scale"; "canvasLayouts";
                              "canvasId"; "layoutFloorId"; "layoutOverlap"])
       then None else IVertoCanvasInfo.others ci !! key).
Proof.
  intros H.
  destruct (mutateCanvasInfoData_result _ _ _ _ _ H)
    as (r & σ' & outs & Hrun & Hr & _).
  exists r, σ', (canvasInfo_of ci (length (heap σ)) (existsb overlaps Ls)).
  split; [exact Hrun |]. split; [exact Hr |]. repeat split.
  intros key. cbn [canvasInfo_of ICanvasInfo.others]. unfold canvas_rest.
  destruct (bool_decide _) eqn:E.
  - apply bool_decide_eq_true in E.
    repeat (apply elem_of_cons in E as [-> | E]); [| | | | | | | inversion E];
      repeat (rewrite lookup_delete_eq || rewrite lookup_delete_ne by discriminate);
      reflexivity.
  - apply bool_decide_eq_false in E.
    rewrite !lookup_delete_ne; [reflexivity | | | | | | |];
      intros <-; apply E; repeat constructor.
Qed.

Lemma mutateCanvasInfoData_canvas_witness :
  let σ := canvas_store 200 (Number 0) (Number 0) (Number 1) in
  holds_canvas σ 4 (raw_canvas 200 0) [1; 2; 3]
    (three_layouts (Number 0) (Number 0) (Number 1)) ∧
  ∃ r σ' out,
    mutateCanvasInfoData 4 σ = (Normal r, σ') ∧
    heap σ' !! r = Some (CanvasInfo out) ∧
    ICanvasInfo.canvasId out = Number 1 ∧
    ICanvasInfo.others out !! "layoutName" = Some (Str "2x2").
Proof.
  assert (Hc : holds_canvas (canvas_store 200 (Number 0) (Number 0) (Number 1)) 4
                 (raw_canvas 200 0) [1; 2; 3]
                 (three_layouts (Number 0) (Number 0) (Number 1))).
  { repeat split; repeat constructor. }
  split; [exact Hc |].
  destruct (mutateCanvasInfoData_canvas _ _ _ _ _ Hc)
    as (r & σ' & out & Hrun & Hr & Hid & _ & _ & Hrest).
  exists r, σ', out. split; [exact Hrun |]. split; [exact Hr |].
  split; [exact Hid |]. rewrite Hrest. reflexivity.
Defined.

(** ** getMediaConstraints: the resolutions asked for and the new objects *)

(** X3.  [getMediaConstraints] asks the resolver once for each preferred id
    that is supplied and not empty, for the microphone before the camera,
    with the label supplied or the empty string, and for nothing else; the
    camera's id is asked for whatever the resolution of the microphone's
    gave. *)
Theorem getMediaConstraints_resolutions assureDeviceId σ options o :
  well_typed_options σ options o →
  ∃ r σ',
    getMediaConstraints assureDeviceId options σ = (Normal r, σ') ∧
    resolutions σ' =
      resolutions σ
      ++ match CallOptions.micId o with
         | Some micId =>
             if JsString.truthy micId
             then [(micId, default "" (CallOptions.micLabel o), AudioIn)] else []
         | None => []
         end
      ++ match CallOptions.camId o with
         | Some camId =>
             if JsString.truthy camId
             then [(camId, default "" (CallOptions.camLabel o), Video)] else []
         | None => []
         end.
Proof.
  intros Hwt.
  destruct (getMediaConstraints_effect assureDeviceId _ _ _ Hwt)
    as (r & σ' & s & Hrun & _ & _ & Hlog & _).
  exists r, σ'. split; [exact Hrun |]. rewrite Hlog, <- app_assoc. reflexivity.
Qed.

Lemma getMediaConstraints_resolutions_witness :
  let o := options_with (Some (inr 0)) (Some "mic-1") (Some "cam-1") in
  let σ := options_store o in
  well_typed_options σ 1 o ∧
  ∃ r σ',
    getMediaConstraints one_microphone 1 σ = (Normal r, σ') ∧
    resolutions σ' = [("mic-1", "", AudioIn); ("cam-1", "", Video)].
Proof.
  cbv zeta.
  assert (Hwt : well_typed_options
                  (options_store (options_with (Some (inr 0)) (Some "mic-1") (Some "cam-1"))) 1
                  (options_with (Some (inr 0)) (Some "mic-1") (Some "cam-1"))).
  { repeat split; cbn; intros l [= <-]; eauto. }
  split; [exact Hwt |].
  destruct (getMediaConstraints_resolutions one_microphone _ _ _ Hwt)
    as (r & σ' & Hrun & Hlog).
  exists r, σ'. split; [exact Hrun | exact Hlog].
Defined.

(** X4.  Where [audio] is a boolean or absent and the microphone's id stands
    for a device, the [audio] returned is a new object whose one property is
    [deviceId], the exact id of the device; likewise for [video] and the
    camera.  The [audio] and the [video] returned are one object only if the
    caller passed that object as both. *)
Theorem getMediaConstraints_new_objects assureDeviceId σ options o :
  well_typed_options σ options o →
  let microphone :=
    preferred assureDeviceId (CallOptions.micId o) (CallOptions.micLabel o) AudioIn in
  let camera :=
    preferred assureDeviceId (CallOptions.camId o) (CallOptions.camLabel o) Video in
  ∃ r σ' s,
    getMediaConstraints assureDeviceId options σ = (Normal r, σ') ∧
    heap σ' !! r = Some (StreamConstraints s) ∧
    (∀ d, microphone = Some d → (∀ l, CallOptions.audio o ≠ Some (inr l)) →
       ∃ l, MediaStreamConstraints.audio s = inr l ∧ new_in σ l ∧
            heap σ' !! l = Some (TrackConstraints {[ "deviceId" := Exact d ]})) ∧
    (∀ d, camera = Some d → (∀ l, CallOptions.video o ≠ Some (inr l)) →
       ∃ l, MediaStreamConstraints.video s = inr l ∧ new_in σ l ∧
            heap σ' !! l = Some (TrackConstraints {[ "deviceId" := Exact d ]})) ∧
    (∀ l, MediaStreamConstraints.audio s = inr l → MediaStreamConstraints.video s = inr l →
          CallOptions.audio o = Some (inr l) ∧ CallOptions.video o = Some (inr l)).
Proof.
  intros Hwt p1 p2. pose proof Hwt as (Ho & Ha & Hv).
  pose proof (getMediaConstraints_run assureDeviceId _ _ _ Hwt) as Hrun.
  cbv zeta in Hrun. fold p1 p2 in Hrun.
  set (t1 := default (inl true) (CallOptions.audio o)) in *.
  set (t2 := default (inl false) (CallOptions.video o)) in *.
  assert (Hin1 : ∀ l, t1 = inr l → l < length (heap σ)).
  { intros l Hl. apply default_inr in Hl. destruct (Ha l Hl) as [m Hm].
    now apply lookup_lt_Some in Hm. }
  assert (Hin2 : ∀ l, t2 = inr l → l < length (heap σ)).
  { intros l Hl. apply default_inr in Hl. destruct (Hv l Hl) as [m Hm].
    now apply lookup_lt_Some in Hm. }
  pose proof (narrowed_length (heap σ) t1 p1) as Hlen1.
  eexists _, _, _. split; [exact Hrun |]. cbn [heap].
  split; [now rewrite list_lookup_middle |].
  cbn [MediaStreamConstraints.audio MediaStreamConstraints.video].
  split; [| split].
  - intros d Hp Hno. rewrite Hp in *.
    destruct t1 as [b | l] eqn:Et1.
    2:{ exfalso. apply (Hno l). now apply (default_inr _ true). }
    cbn [narrowed fst snd] in *. exists (length (heap σ)).
    split; [reflexivity |]. split; [unfold new_in; lia |].
    apply lookup_app_l_Some.
    assert (Hnew : (heap σ ++ [TrackConstraints (<["deviceId" := Exact d]> ∅)])
                     !! length (heap σ) =
                   Some (TrackConstraints (<["deviceId" := Exact d]> ∅)))
      by now apply list_lookup_middle.
    rewrite (narrowed_lookup _ t2 p2 _ _ Hnew).
    destruct p2 as [d2 |]; [| reflexivity].
    destruct (decide (t2 = inr (length (heap σ)))) as [E | _]; [| reflexivity].
    apply Hin2 in E. lia.
  - intros d Hp Hno. rewrite Hp in *.
    destruct t2 as [b | l] eqn:Et2.
    2:{ exfalso. apply (Hno l). now apply (default_inr _ false). }
    cbn [narrowed fst snd] in *. exists (length (narrowed (heap σ) t1 p1).2).
    split; [reflexivity |]. split; [unfold new_in; lia |].
    apply lookup_app_l_Some, list_lookup_middle. reflexivity.
  - intros l H1 H2.
    assert (E1 : t1 = inr l ∨
                 (l = length (heap σ) ∧ length (narrowed (heap σ) t1 p1).2 = S l)).
    { destruct p1 as [d |], t1 as [b | l']; cbn [narrowed fst snd] in *;
        try (left; congruence).
      right. injection H1 as <-. split; [reflexivity |].
      rewrite List.length_app. cbn. lia. }
    assert (E2 : t2 = inr l ∨ length (narrowed (heap σ) t1 p1).2 ≤ l).
    { now apply (narrowed_track _ t2 p2). }
    destruct E1 as [E1 | [E1 E1']], E2 as [E2 | E2].
    + split; now apply default_inr in E1, E2.
    + apply Hin1 in E1. lia.
    + apply Hin2 in E2. lia.
    + lia.
Qed.

Lemma getMediaConstraints_new_objects_witness :
  let o := options_with None (Some "mic-1") None in
  let σ := options_store o in
  well_typed_options σ 1 o ∧
  ∃ r σ' s l,
    getMediaConstraints one_microphone 1 σ = (Normal r, σ') ∧
    heap σ' !! r = Some (StreamConstraints s) ∧
    MediaStreamConstraints.audio s = inr l ∧
    heap σ' !! l = Some (TrackConstraints {[ "deviceId" := Exact "device-1" ]}).
Proof.
  cbv zeta.
  assert (Hwt : well_typed_options
                  (options_store (options_with None (Some "mic-1") None)) 1
                  (options_with None (Some "mic-1") None)).
  { repeat split; cbn; intros l [=]. }
  split; [exact Hwt |].
  destruct (getMediaConstraints_new_objects one_microphone _ _ _ Hwt)
    as (r & σ' & s & Hrun & Hr & Hmic & _).
  destruct (Hmic "device-1" eq_refl) as (l & Hl & _ & Hobj); [intros l [=] |].
  exists r, σ', s, l. repeat split; assumption.
Defined.

(** ** The comparison function and the entries of the catalog *)

(** X5.  [_layoutCompare] is a consistent comparison function: it returns
    -1, 0 or 1, it returns 0 exactly when the lower-cased labels are equal,
    exchanging its arguments negates the result, and "not above" is
    transitive. *)
Theorem _layoutCompare_consistent (a b c : ILayout.t) :
  (_layoutCompare a b = -1 ∨ _layoutCompare a b = 0 ∨ _layoutCompare a b = 1)%Z ∧
  (_layoutCompare a b = 0%Z ↔ sort_key a = sort_key b) ∧
  (_layoutCompare a b = - _layoutCompare b a)%Z ∧
  ((_layoutCompare a b <= 0)%Z → (_layoutCompare b c <= 0)%Z → (_layoutCompare a c <= 0)%Z).
Proof.
  assert (Hle : ∀ x y, (_layoutCompare x y <= 0)%Z ↔
                       String.compare (sort_key x) (sort_key y) ≠ Gt).
  { intros x y. unfold _layoutCompare, JsString.gt, JsString.lt, sort_key.
    destruct (String.compare _ _); cbn; split; (congruence || lia). }
  split; [| split; [| split]].
  - unfold _layoutCompare, JsString.gt, JsString.lt.
    destruct (String.compare _ _); cbn; auto.
  - unfold _layoutCompare, JsString.gt, JsString.lt.
    fold (sort_key a) (sort_key b).
    destruct (String.compare (sort_key a) (sort_key b)) eqn:E.
    + apply String.compare_eq_iff in E. split; [intros _; exact E | reflexivity].
    + split; [discriminate |]. intros H. rewrite H, string_compare_refl in E. discriminate.
    + split; [discriminate |]. intros H. rewrite H, string_compare_refl in E. discriminate.
  - unfold _layoutCompare, JsString.gt, JsString.lt.
    rewrite (String.compare_antisym (JsString.toLowerCase (ILayout.label a))).
    destruct (String.compare _ _); reflexivity.
  - rewrite !Hle. apply not_gt_trans.
Qed.

Lemma _layoutCompare_consistent_witness :
  let a := entry_of (raw_flat "b-side" None) in
  let b := entry_of (raw_flat "x" (Some "B SIDE")) in
  (_layoutCompare a b <= 0)%Z ∧ (_layoutCompare b a <= 0)%Z ∧ (_layoutCompare a a <= 0)%Z.
Proof.
  intros a b.
  assert (H1 : (_layoutCompare a b <= 0)%Z) by (vm_compute; discriminate).
  assert (H2 : (_layoutCompare b a <= 0)%Z) by (vm_compute; discriminate).
  split; [exact H1 |]. split; [exact H2 |].
  exact (proj2 (proj2 (proj2 (_layoutCompare_consistent a b a))) H1 H2).
Defined.

(** X6.  The entries of the catalog carry the [name] of the layouts and of
    the groups as [id], their [type], and their [resIDS] as
    [reservationIds], the empty array standing for [resIDS] that are
    absent: the catalog is a rearrangement of these, the groups' and the
    layouts'. *)
Theorem mungeLayoutList_entries layouts groups :
  map (λ e, (ILayout.id e, ILayout.type e, ILayout.reservationIds e))
      (mungeLayoutList layouts groups) ≡ₚ
  map (λ l, (IVertoLayout.name l, IVertoLayout.type l, default [] (IVertoLayout.resIDS l)))
      (groups ++ layouts).
Proof.
  rewrite mungeLayoutList_perm, groupList_map, normalList_map.
  rewrite !map_app, !map_map. reflexivity.
Qed.

(** ** removeUnsupportedConstraints *)

Section RemoveUnsupportedFacts.
Context (supported : gset string).

Lemma state_eta σ : mkState (heap σ) (resolutions σ) = σ.
Proof. now destruct σ. Qed.

Lemma remove_if_unsupported_run σ constraints m key :
  heap σ !! constraints = Some (TrackConstraints m) →
  remove_if_unsupported supported constraints key σ =
  (Normal tt,
   mkState (<[constraints :=
                TrackConstraints (filter (λ kc, kc.1 ≠ key ∨ stays supported kc) m)]> (heap σ))
           (resolutions σ)).
Proof.
  intros Hc. unfold remove_if_unsupported. rewrite bind_run.
  rewrite (load_as_run as_TrackConstraints _ _ _ m Hc) by reflexivity.
  assert (Hdel : ∀ v, m !! key = v →
            (match v with Some c => ¬ stays supported (key, c) | None => True end) →
            filter (λ kc, kc.1 ≠ key ∨ stays supported kc) m = delete key m).
  { intros v Hv Hno. apply map_eq. intros i. apply option_eq. intros x.
    rewrite map_lookup_filter_Some. cbn. destruct (decide (i = key)) as [-> | Hne].
    - rewrite lookup_delete_eq, Hv. split; [| discriminate].
      intros [-> [H | H]]; [congruence | contradiction].
    - rewrite lookup_delete_ne by congruence. tauto. }
  destruct (m !! key) as [c |] eqn:Hk; cbn [default from_option id].
  - destruct (negb (bool_decide (key ∈ supported)) || is_null c || is_undefined c) eqn:E.
    + unfold store. rewrite (Hdel _ eq_refl); [reflexivity |].
      intros (Hs & Hn & Hu). cbn in *. rewrite Hn, Hu, bool_decide_true in E by exact Hs.
      discriminate.
    + apply orb_false_iff in E as [E Hu]. apply orb_false_iff in E as [Hs Hn].
      apply negb_false_iff, bool_decide_eq_true in Hs.
      assert (Hid : filter (λ kc, kc.1 ≠ key ∨ stays supported kc) m = m).
      { apply map_eq. intros i. apply option_eq. intros x.
        rewrite map_lookup_filter_Some. cbn. split; [tauto |]. intros Hi. split; [exact Hi |].
        destruct (decide (i = key)) as [-> | Hne]; [right | now left].
        rewrite Hk in Hi. injection Hi as <-. repeat split; assumption. }
      rewrite Hid, list_insert_id by exact Hc. unfold mret, M_ret. now rewrite state_eta.
  - cbn [is_null is_undefined]. rewrite orb_true_r. unfold store.
    rewrite (Hdel _ eq_refl); [reflexivity | exact I].
Qed.

Lemma remove_loop_run constraints keys : ∀ σ m,
  heap σ !! constraints = Some (TrackConstraints m) →
  for_each (remove_if_unsupported supported constraints) keys σ =
  (Normal tt,
   mkState (<[constraints :=
                TrackConstraints (filter (λ kc, kc.1 ∉ keys ∨ stays supported kc) m)]> (heap σ))
           (resolutions σ)).
Proof.
  induction keys as [|key keys IH]; intros σ m Hc.
  - cbn [for_each]. unfold mret, M_ret.
    assert (Hid : filter (λ kc : string * constraint, kc.1 ∉ [] ∨ stays supported kc) m = m).
    { apply map_eq. intros i. apply option_eq. intros x.
      rewrite map_lookup_filter_Some. split; [tauto |]. intros Hi. split; [exact Hi |].
      left. apply not_elem_of_nil. }
    now rewrite Hid, list_insert_id, state_eta by exact Hc.
  - cbn [for_each]. rewrite bind_run, (remove_if_unsupported_run _ _ m) by exact Hc.
    pose proof (lookup_lt_Some _ _ _ Hc) as Hlt.
    rewrite (IH _ (filter (λ kc, kc.1 ≠ key ∨ stays supported kc) m)).
    2:{ cbn [heap]. now apply list_lookup_insert_eq. }
    cbn [heap resolutions]. rewrite list_insert_insert_eq.
    assert (Hm : filter (λ kc, kc.1 ∉ keys ∨ stays supported kc)
                   (filter (λ kc, kc.1 ≠ key ∨ stays supported kc) m) =
                 filter (λ kc, kc.1 ∉ key :: keys ∨ stays supported kc) m).
    { apply map_eq. intros i. apply option_eq. intros x.
      rewrite !map_lookup_filter_Some. cbn. rewrite not_elem_of_cons. tauto. }
    now rewrite Hm.
Qed.

Lemma removeUnsupportedConstraints_run σ constraints m :
  heap σ !! constraints = Some (TrackConstraints m) →
  removeUnsupportedConstraints supported constraints σ =
  (Normal tt,
   mkState (<[constraints := TrackConstraints (filter (stays supported) m)]> (heap σ))
           (resolutions σ)).
Proof.
  intros Hc. unfold removeUnsupportedConstraints. rewrite bind_run.
  rewrite (load_as_run as_TrackConstraints _ _ _ m Hc) by reflexivity.
  rewrite (remove_loop_run _ _ _ m Hc).
  assert (Hm : filter (λ kc, kc.1 ∉ (map_to_list m).*1 ∨ stays supported kc) m =
               filter (stays supported) m).
  { apply map_eq. intros i. apply option_eq. intros x.
    rewrite !map_lookup_filter_Some. cbn. split; [| tauto].
    intros [Hi [Hn | Hs]]; [| tauto]. exfalso. apply Hn.
    apply list_elem_of_fmap. exists (i, x). split; [reflexivity |].
    now apply elem_of_map_to_list. }
  now rewrite Hm.
Qed.

End RemoveUnsupportedFacts.

Lemma is_null_false (c : constraint) : is_null c = false ↔ c ≠ Plain Null.
Proof. destruct c as [[] |]; cbn; split; congruence. Qed.

Lemma is_undefined_false (c : constraint) : is_undefined c = false ↔ c ≠ Plain Undefined.
Proof. destruct c as [[] |]; cbn; split; congruence. Qed.

(** X7.  [removeUnsupportedConstraints] leaves in the object exactly the
    properties whose key the browser supports and whose value is neither
    [null] nor [undefined], each with the value it had; it changes no other
    object. *)
Theorem removeUnsupportedConstraints_keeps supported σ constraints m :
  heap σ !! constraints = Some (TrackConstraints m) →
  ∃ σ' m',
    removeUnsupportedConstraints supported constraints σ = (Normal tt, σ') ∧
    heap σ' !! constraints = Some (TrackConstraints m') ∧
    (∀ key c, m' !! key = Some c ↔
       m !! key = Some c ∧ key ∈ supported ∧ c ≠ Plain Null ∧ c ≠ Plain Undefined) ∧
    (∀ l, l ≠ constraints → heap σ' !! l = heap σ !! l) ∧
    resolutions σ' = resolutions σ.
Proof.
  intros Hc. rewrite (removeUnsupportedConstraints_run _ _ _ m Hc).
  eexists _, _. split; [reflexivity |]. cbn [heap resolutions].
  pose proof (lookup_lt_Some _ _ _ Hc) as Hlt.
  split; [now apply list_lookup_insert_eq |]. split; [| split; [| reflexivity]].
  - intros key c. rewrite map_lookup_filter_Some. unfold stays. cbn.
    rewrite is_null_false, is_undefined_false. tauto.
  - intros l Hl. now apply list_lookup_insert_ne.
Qed.

Lemma removeUnsupportedConstraints_keeps_witness :
  heap constraints_store !! 0 =
    Some (TrackConstraints (list_to_map
            [("echoCancellation", Plain (Bool true)); ("zoom", Plain (Number 2));
             ("frameRate", Plain Null)])) ∧
  ∃ σ' m',
    removeUnsupportedConstraints {[ "echoCancellation"; "frameRate" ]} 0 constraints_store =
      (Normal tt, σ') ∧
    heap σ' !! 0 = Some (TrackConstraints m') ∧
    m' !! "echoCancellation" = Some (Plain (Bool true)) ∧
    m' !! "zoom" = None ∧ m' !! "frameRate" = None.
Proof.
  split; [reflexivity |].
  destruct (removeUnsupportedConstraints_keeps {[ "echoCancellation"; "frameRate" ]}
              constraints_store 0 _ eq_refl) as (σ' & m' & Hrun & Hm' & Hkeys & _).
  exists σ', m'. split; [exact Hrun |]. split; [exact Hm' |]. split; [| split].
  - apply Hkeys. split; [reflexivity |].
    split; [apply (bool_decide_unpack _); vm_compute; exact I |]. split; discriminate.
  - destruct (m' !! "zoom") as [c |] eqn:E; [| reflexivity].
    apply Hkeys in E as (_ & Hs & _). exfalso. revert Hs.
    apply (bool_decide_unpack _). vm_compute. exact I.
  - destruct (m' !! "frameRate") as [c |] eqn:E; [| reflexivity].
    apply Hkeys in E as (E & _ & Hn & _). vm_compute in E. congruence.
Defined.

(** X8.  [removeUnsupportedConstraints] is idempotent: a second call on the
    same object changes nothing. *)
Theorem removeUnsupportedConstraints_idempotent supported σ constraints m :
  heap σ !! constraints = Some (TrackConstraints m) →
  ∃ σ',
    removeUnsupportedConstraints supported constraints σ = (Normal tt, σ') ∧
    removeUnsupportedConstraints supported constraints σ' = (Normal tt, σ').
Proof.
  intros Hc. rewrite (removeUnsupportedConstraints_run _ _ _ m Hc).
  eexists. split; [reflexivity |].
  pose proof (lookup_lt_Some _ _ _ Hc) as Hlt.
  rewrite (removeUnsupportedConstraints_run _ _ _ (filter (stays supported) m)).
  2:{ cbn [heap]. now apply list_lookup_insert_eq. }
  cbn [heap resolutions]. rewrite list_insert_insert_eq.
  assert (Hm : filter (stays supported) (filter (stays supported) m) =
               filter (stays supported) m).
  { apply map_eq. intros i. apply option_eq. intros x.
    rewrite !map_lookup_filter_Some. tauto. }
  now rewrite Hm.
Qed.

Lemma removeUnsupportedConstraints_idempotent_witness :
  heap constraints_store !! 0 =
    Some (TrackConstraints (list_to_map
            [("echoCancellation", Plain (Bool true)); ("zoom", Plain (Number 2));
             ("frameRate", Plain Null)])) ∧
  ∃ σ',
    removeUnsupportedConstraints {[ "echoCancellation" ]} 0 constraints_store =
      (Normal tt, σ') ∧
    removeUnsupportedConstraints {[ "echoCancellation" ]} 0 σ' = (Normal tt, σ').
Proof.
  split; [reflexivity |].
  exact (removeUnsupportedConstraints_idempotent {[ "echoCancellation" ]}
           constraints_store 0 _ eq_refl).
Defined.

(** ** destructSubscribeResponse and checkIsDirectCall *)

(** X9.  For a response that is an object, [destructSubscribeResponse]
    returns an object with the five keys [subscribed], [alreadySubscribed],
    [unauthorized], [unsubscribed] and [notSubscribed]; each holds what the
    response has under the key followed by [Channels], or an empty array
    where the response has nothing there or something falsy.  A response
    that is [undefined] or [null] makes it throw a TypeError; for any other
    primitive value the five arrays are empty. *)
Theorem destructSubscribeResponse_channels :
  (∀ o : gmap string field,
     destructSubscribeResponse (PObject o) =
     Normal (list_to_map
               (map (λ k, (k, channels_or_empty (o !! (k +:+ "Channels"))))
                    subscription_keys))) ∧
  destructSubscribeResponse (PPrim Undefined) = Throw TypeError ∧
  destructSubscribeResponse (PPrim Null) = Throw TypeError ∧
  (∀ v, v ≠ Undefined → v ≠ Null →
     destructSubscribeResponse (PPrim v) =
     Normal (list_to_map (map (λ k, (k, FStrings [])) subscription_keys))).
Proof.
  assert (Hshadow : ∀ a b c d e : field,
            <["notSubscribed" := e]> (<["unsubscribed" := d]> (<["unauthorized" := c]>
              (<["alreadySubscribed" := b]> (<["subscribed" := a]>
                (list_to_map [("subscribed", FStrings []); ("alreadySubscribed", FStrings []);
                              ("unauthorized", FStrings []); ("unsubscribed", FStrings []);
                              ("notSubscribed", FStrings [])]))))) =
            (list_to_map [("subscribed", a); ("alreadySubscribed", b); ("unauthorized", c);
                          ("unsubscribed", d); ("notSubscribed", e)] : gmap string field)).
  { intros a b c d e. apply map_eq. intros k. cbn [list_to_map foldr uncurry fst snd].
    destruct (decide (k = "subscribed")) as [-> | ?];
      [repeat (rewrite lookup_insert_eq || rewrite lookup_insert_ne by discriminate);
       reflexivity |].
    destruct (decide (k = "alreadySubscribed")) as [-> | ?];
      [repeat (rewrite lookup_insert_eq || rewrite lookup_insert_ne by discriminate);
       reflexivity |].
    destruct (decide (k = "unauthorized")) as [-> | ?];
      [repeat (rewrite lookup_insert_eq || rewrite lookup_insert_ne by discriminate);
       reflexivity |].
    destruct (decide (k = "unsubscribed")) as [-> | ?];
      [repeat (rewrite lookup_insert_eq || rewrite lookup_insert_ne by discriminate);
       reflexivity |].
    destruct (decide (k = "notSubscribed")) as [-> | ?];
      [repeat (rewrite lookup_insert_eq || rewrite lookup_insert_ne by discriminate);
       reflexivity |].
    rewrite !lookup_insert_ne by congruence. reflexivity. }
  split; [| split; [reflexivity | split; [reflexivity |]]].
  - intros o.
    assert (Hval : ∀ x, JsCoerce.or_else (default (FPrim Undefined) x) (FStrings []) =
                        channels_or_empty x) by (intros [c |]; reflexivity).
    unfold destructSubscribeResponse.
    cbn [fold_left property mbind completion_bind mret completion_ret].
    rewrite !Hval, Hshadow. reflexivity.
  - intros v Hu Hn. destruct v; try congruence;
      unfold destructSubscribeResponse; cbn; now rewrite Hshadow.
Qed.

Lemma destructSubscribeResponse_channels_witness :
  ∃ tmp,
    destructSubscribeResponse
      (PObject (list_to_map [("subscribedChannels", FStrings ["a"; "b"]);
                             ("unauthorizedChannels", FPrim Null)])) = Normal tmp ∧
    tmp !! "subscribed" = Some (FStrings ["a"; "b"]) ∧
    tmp !! "unauthorized" = Some (FStrings []) ∧
    tmp !! "notSubscribed" = Some (FStrings []) ∧
    tmp !! "subscribedChannels" = None ∧
    destructSubscribeResponse (PPrim (Number 1)) =
      Normal (list_to_map (map (λ k, (k, FStrings [])) subscription_keys)).
Proof.
  destruct destructSubscribeResponse_channels as (Hobject & _ & _ & Hprim).
  eexists. split; [apply Hobject |].
  split; [vm_compute; reflexivity |]. split; [vm_compute; reflexivity |].
  split; [vm_compute; reflexivity |]. split; [vm_compute; reflexivity |].
  apply Hprim; discriminate.
Defined.

(** X10.  [checkIsDirectCall] returns [true] exactly when [variables] is an
    object that has the property [verto_svar_direct_call], whatever its
    value.  It throws a TypeError when its argument is [undefined] or
    [null], and also when [variables] is [null], whose [typeof] is
    ["object"]; it returns [false] in every other case. *)
Theorem checkIsDirectCall_cases (params : payload) :
  (checkIsDirectCall params = Normal true ↔
   ∃ o variables,
     params = PObject o ∧ o !! "variables" = Some (FObject variables) ∧
     is_Some (variables !! "verto_svar_direct_call")) ∧
  (checkIsDirectCall params = Throw TypeError ↔
   params = PPrim Undefined ∨ params = PPrim Null ∨
   ∃ o, params = PObject o ∧ o !! "variables" = Some (FPrim Null)).
Proof.
  destruct params as [v | o].
  - split; split.
    + destruct v; discriminate.
    + intros (o & variables & [=] & _).
    + destruct v; (discriminate || auto).
    + intros [[= ->] | [[= ->] | (o & [=] & _)]]; reflexivity.
  - assert (Heq : checkIsDirectCall (PObject o) =
                  match o !! "variables" with
                  | Some (FObject variables) =>
                      Normal (bool_decide (is_Some (variables !! "verto_svar_direct_call")))
                  | Some (FPrim Null) => Throw TypeError
                  | _ => Normal false
                  end).
    { unfold checkIsDirectCall. cbn [property mbind completion_bind].
      destruct (o !! "variables") as [[[] | a | variables] |]; reflexivity. }
    rewrite Heq. clear Heq. split; split.
    + intros H. destruct (o !! "variables") as [[[] | a | variables] |] eqn:E;
        try discriminate.
      injection H as H. apply bool_decide_eq_true in H. eauto.
    + intros (o' & variables & [= <-] & E & H). rewrite E. f_equal.
      now apply bool_decide_eq_true.
    + intros H. right. right. exists o. split; [reflexivity |].
      destruct (o !! "variables") as [[[] | a | variables] |] eqn:E;
        try discriminate.
      reflexivity.
    + intros [[=] | [[=] | (o' & [= <-] & E)]]. rewrite E. reflexivity.
Qed.

Lemma checkIsDirectCall_cases_witness :
  checkIsDirectCall
    (PObject {[ "variables" :=
                  FObject {[ "verto_svar_direct_call" := Str "false" ]} ]}) = Normal true ∧
  checkIsDirectCall (PObject {[ "variables" := FPrim Null ]}) = Throw TypeError.
Proof.
  split.
  - apply (proj1 (checkIsDirectCall_cases _)). eexists _, _. split; [reflexivity |].
    split; [reflexivity |]. eexists. reflexivity.
  - apply (proj2 (checkIsDirectCall_cases _)). right. right. eexists. split; reflexivity.
Defined.

(** ** destructConferenceState *)

Lemma property_read (p : payload) :
  p = PPrim Undefined ∨ p = PPrim Null ∨
  ∀ key, property p key = Normal (read_payload p key).
Proof. destruct p as [[] | o]; auto. Qed.

Lemma or_empty_object_read (x : field) :
  x = FPrim Null ∨ ∀ key, field_property (or_empty_object x) key = Normal (read x key).
Proof. destruct x as [[] | a | o]; auto. Qed.

(** How [destructConferenceState] completes. *)
Lemma destructConferenceState_completion StringToNumber (confState : payload) :
  (destructConferenceState StringToNumber confState = Throw TypeError ↔
   confState = PPrim Undefined ∨ confState = PPrim Null ∨
   ∃ o, confState = PObject o ∧
        (o !! "variables" = Some (FPrim Null) ∨ o !! "flags" = Some (FPrim Null))) ∧
  ((∃ info, destructConferenceState StringToNumber confState = Normal info) ∨
   destructConferenceState StringToNumber confState = Throw TypeError).
Proof.
  destruct (property_read confState) as [-> | [-> | Hp]].
  { split; [| now right]. split; auto. }
  { split; [| now right]. split; auto. }
  unfold destructConferenceState. rewrite !Hp.
  cbn [fmap completion_fmap mbind completion_bind].
  assert (Hnull : ∀ key,
            read_payload confState key = FPrim Null →
            ∃ o, confState = PObject o ∧ o !! key = Some (FPrim Null)).
  { intros key E. destruct confState as [v | o]; [discriminate |].
    exists o. split; [reflexivity |]. cbn in E.
    destruct (o !! key) as [x |]; cbn in E; [now subst | discriminate]. }
  destruct (or_empty_object_read (read_payload confState "variables")) as [Ev | Ev].
  { rewrite Ev.
    cbn [object_literal fmap completion_fmap mbind completion_bind mret completion_ret
         field_property or_empty_object].
    split; [| now right]. split; [| reflexivity]. intros _. right. right.
    destruct (Hnull _ Ev) as (o & -> & E). eauto. }
  destruct (or_empty_object_read (read_payload confState "flags")) as [Ef | Ef].
  { rewrite !Ev, Ef.
    cbn [object_literal fmap completion_fmap mbind completion_bind mret completion_ret
         field_property or_empty_object].
    split; [| now right]. split; [| reflexivity]. intros _. right. right.
    destruct (Hnull _ Ef) as (o & -> & E). eauto. }
  rewrite !Ev, !Ef.
  cbn [object_literal fmap completion_fmap mbind completion_bind mret completion_ret].
  split; [| left; eauto]. split; [discriminate |].
  intros [-> | [-> | (o & -> & [E | E])]].
  - specialize (Hp "x"). discriminate.
  - specialize (Hp "x"). discriminate.
  - specialize (Ev "x"). cbn in Ev. rewrite E in Ev. discriminate.
  - specialize (Ef "x"). cbn in Ef. rewrite E in Ef. discriminate.
Qed.

(** X11.  [destructConferenceState] throws (a TypeError) exactly when the
    state is [undefined] or [null], or its [variables] or its [flags] are
    [null]: the defaults of the destructuring stand in for [undefined]
    only.  In every other case it returns an object. *)
Theorem destructConferenceState_throws StringToNumber (confState : payload) :
  (destructConferenceState StringToNumber confState = Throw TypeError ↔
   confState = PPrim Undefined ∨ confState = PPrim Null ∨
   ∃ o, confState = PObject o ∧
        (o !! "variables" = Some (FPrim Null) ∨ o !! "flags" = Some (FPrim Null))) ∧
  ((∃ info, destructConferenceState StringToNumber confState = Normal info) ↔
   destructConferenceState StringToNumber confState ≠ Throw TypeError).
Proof.
  destruct (destructConferenceState_completion StringToNumber confState) as [Hiff Hor].
  split; [exact Hiff |]. split.
  - intros [info ->]. discriminate.
  - intros Hne. destruct Hor as [H | H]; [exact H | contradiction].
Qed.

Lemma truthy_number_not_nan (n : float) :
  JsCoerce.truthy (Number n) = true → PrimFloat.eqb n n = true.
Proof. cbn. now intros [_ H]%andb_true_iff. Qed.

(** X12.  In the object [destructConferenceState] returns, the three channel
    names are ["conference-liveArray."], ["conference-info."] and
    ["conference-mod."] followed by the string forms of [md5] and [domain]
    with an [@] between them.  [numMembers] is a number and never NaN (0
    stands for a count that is missing or not numeric).  The fields made
    with [Boolean] or [===] are booleans; a field made with [|| null] is
    [null] or truthy, and one made with [|| false] is [false] or truthy. *)
Theorem destructConferenceState_fields StringToNumber (confState : payload)
    (info : gmap string field) :
  destructConferenceState StringToNumber confState = Normal info →
  (let suffix :=
     JsCoerce.ToString (read_payload confState "md5") +:+ "@"
     +:+ JsCoerce.ToString (read_payload confState "domain") in
   info !! "laChannel" = Some (FPrim (Str ("conference-liveArray." +:+ suffix))) ∧
   info !! "infoChannel" = Some (FPrim (Str ("conference-info." +:+ suffix))) ∧
   info !! "modChannel" = Some (FPrim (Str ("conference-mod." +:+ suffix)))) ∧
  (∃ n, info !! "numMembers" = Some (FPrim (Number n)) ∧ PrimFloat.eqb n n = true) ∧
  (∀ key, key ∈ boolean_keys → ∃ b, info !! key = Some (FPrim (Bool b))) ∧
  (∀ key, key ∈ or_null_keys →
     ∃ x, info !! key = Some x ∧ (x = FPrim Null ∨ JsCoerce.Boolean_ x = true)) ∧
  (∀ key, key ∈ or_false_keys →
     ∃ x, info !! key = Some x ∧ (x = FPrim (Bool false) ∨ JsCoerce.Boolean_ x = true)).
Proof.
  destruct (property_read confState) as [-> | [-> | Hp]]; [discriminate | discriminate |].
  unfold destructConferenceState. rewrite !Hp.
  cbn [fmap completion_fmap mbind completion_bind].
  destruct (or_empty_object_read (read_payload confState "variables")) as [Ev | Ev].
  { rewrite Ev.
    cbn [object_literal fmap completion_fmap mbind completion_bind mret completion_ret
         field_property or_empty_object].
    discriminate. }
  destruct (or_empty_object_read (read_payload confState "flags")) as [Ef | Ef].
  { rewrite !Ev, Ef.
    cbn [object_literal fmap completion_fmap mbind completion_bind mret completion_ret
         field_property or_empty_object].
    discriminate. }
  rewrite !Ev, !Ef.
  cbn [object_literal fmap completion_fmap mbind completion_bind mret completion_ret].
  match goal with
  | |- Normal (list_to_map ?l) = _ → _ => remember l as entries eqn:He
  end.
  intros [= <-].
  assert (Hlook : ∀ key x, (key, x) ∈ entries →
                             (list_to_map entries : gmap string field) !! key = Some x).
  { intros key x Hin. apply elem_of_list_to_map_1; [| exact Hin].
    subst entries. cbn [fmap list_fmap fst].
    apply (bool_decide_unpack _). vm_compute. exact I. }
  assert (Hor : ∀ v w, value_or w v = FPrim w ∨ JsCoerce.Boolean_ (value_or w v) = true).
  { intros v w. unfold value_or. destruct (JsCoerce.truthy v) eqn:E; auto. }
  assert (Hor' : ∀ x, JsCoerce.or_else x (FPrim Null) = FPrim Null ∨
                      JsCoerce.Boolean_ (JsCoerce.or_else x (FPrim Null)) = true).
  { intros x. unfold JsCoerce.or_else. destruct (JsCoerce.Boolean_ x) eqn:E; auto. }
  split; [| split; [| split; [| split]]].
  - cbv zeta. repeat split; apply Hlook; subst entries;
      repeat first [apply list_elem_of_here | apply list_elem_of_further].
  - set (members := Number_ StringToNumber (read_payload confState "members")).
    exists (if JsCoerce.truthy (Number members) then members else 0%float). split.
    + replace (FPrim (Number (if JsCoerce.truthy (Number members) then members else 0%float)))
        with (Number_or StringToNumber (read_payload confState "members") (Number 0))
        by (unfold Number_or; fold members; now destruct (JsCoerce.truthy (Number members))).
      apply Hlook. subst entries.
      repeat first [apply list_elem_of_here | apply list_elem_of_further].
    + destruct (JsCoerce.truthy (Number members)) eqn:E;
        [now apply truthy_number_not_nan | reflexivity].
  - intros key Hkey. unfold boolean_keys in Hkey.
    repeat (apply elem_of_cons in Hkey as [-> | Hkey]); [.. | inversion Hkey];
      eexists; apply Hlook; subst entries;
      repeat first [apply list_elem_of_here | apply list_elem_of_further].
  - intros key Hkey. unfold or_null_keys in Hkey.
    repeat (apply elem_of_cons in Hkey as [-> | Hkey]); [.. | inversion Hkey];
      (eexists; split;
       [apply Hlook; subst entries;
        repeat first [apply list_elem_of_here | apply list_elem_of_further] |]);
      first [apply Hor | apply Hor'].
  - intros key Hkey. unfold or_false_keys in Hkey.
    repeat (apply elem_of_cons in Hkey as [-> | Hkey]); [.. | inversion Hkey];
      (eexists; split;
       [apply Hlook; subst entries;
        repeat first [apply list_elem_of_here | apply list_elem_of_further] |
        apply Hor]).
Qed.

Lemma destructConferenceState_fields_witness :
  ∃ info,
    destructConferenceState three_or_nan raw_conference = Normal info ∧
    info !! "laChannel" = Some (FPrim (Str "conference-liveArray.abc@example.com")) ∧
    info !! "numMembers" = Some (FPrim (Number 3)) ∧
    info !! "accessPin" = Some (FPrim Null) ∧
    ∃ b, info !! "locked" = Some (FPrim (Bool b)).
Proof.
  assert (Hrun : ∃ info, destructConferenceState three_or_nan raw_conference = Normal info).
  { destruct (destructConferenceState_completion three_or_nan raw_conference)
      as [Hiff [H | H]]; [exact H |].
    apply Hiff in H as [[=] | [[=] | (o & [= <-] & [[=] | [=]])]]. }
  destruct Hrun as [info Hrun]. exists info. split; [exact Hrun |].
  destruct (destructConferenceState_fields _ _ _ Hrun) as ((Hla & _) & _ & Hb & _).
  assert (Hs : "conference-liveArray."
               +:+ JsCoerce.ToString (read_payload raw_conference "md5") +:+ "@"
               +:+ JsCoerce.ToString (read_payload raw_conference "domain") =
               "conference-liveArray.abc@example.com") by (vm_compute; reflexivity).
  split; [rewrite <- Hs; exact Hla |].
  assert (Hat : ∀ key,
            match destructConferenceState three_or_nan raw_conference with
            | Normal info => info !! key
            | Throw _ => None
            end = info !! key) by (intros key; now rewrite Hrun).
  split; [rewrite <- Hat; vm_compute; reflexivity |].
  split; [rewrite <- Hat; vm_compute; reflexivity |].
  apply Hb. unfold boolean_keys. do 10 apply list_elem_of_further. apply list_elem_of_here.
Defined.

(** ** The tracks of a media stream *)

Lemma T_bind_run {A B} (m : T A) (k : A → T B) h :
  (m ≫= k) h = match m h with
               | (Normal a, h') => k a h'
               | (Throw e, h') => (Throw e, h')
               end.
Proof. reflexivity. Qed.

(** [forEach(_updateTrack)] on tracks that exist updates them one after the
    other. *)
Lemma forEach_updateTrack_run enabled (tracks : list nat) : ∀ h,
  (∀ l, l ∈ tracks → l < length h) →
  forEach (_updateTrack enabled) tracks h =
  (Normal tt, foldl (λ h l, alter (updated enabled) l h) h tracks).
Proof.
  induction tracks as [|l tracks IH]; intros h Hin; [reflexivity |].
  cbn [forEach foldl]. rewrite T_bind_run. unfold _updateTrack at 1.
  destruct (lookup_lt_is_Some_2 h l) as [t Ht]; [apply Hin; left |].
  rewrite Ht.
  assert (Hup : <[l := {| MediaStreamTrack.kind := MediaStreamTrack.kind t;
                          MediaStreamTrack.enabled :=
                            match enabled with
                            | Some true => true
                            | Some false => false
                            | None => negb (MediaStreamTrack.enabled t)
                            end |}]> h = alter (updated enabled) l h).
  { apply list_eq. intros i. destruct (decide (i = l)) as [-> | Hne].
    - rewrite list_lookup_insert_eq by now apply lookup_lt_Some in Ht.
      rewrite list_lookup_alter_eq, Ht. cbn. unfold updated. now destruct enabled as [[] |].
    - rewrite list_lookup_insert_ne, list_lookup_alter_ne by congruence. reflexivity. }
  rewrite Hup. apply IH. intros l' Hl'. rewrite length_alter. apply Hin. now right.
Qed.

Lemma foldl_alter_length {A} (f : A → A) (ls : list nat) : ∀ h : list A,
  length (foldl (λ h l, alter f l h) h ls) = length h.
Proof.
  induction ls as [|l ls IH]; intros h; [reflexivity |].
  cbn [foldl]. now rewrite IH, length_alter.
Qed.

(** A function that is idempotent is applied to the objects at [ls]. *)
Lemma foldl_alter_idempotent {A} (f : A → A) (ls : list nat) :
  (∀ a, f (f a) = f a) →
  ∀ (h : list A) l, foldl (λ h l, alter f l h) h ls !! l =
         if decide (l ∈ ls) then f <$> h !! l else h !! l.
Proof.
  intros Hf. induction ls as [|a ls IH]; intros h l; [reflexivity |].
  cbn [foldl]. rewrite IH.
  destruct (decide (l = a)) as [-> | Hne].
  - rewrite list_lookup_alter_eq, (decide_True (P := a ∈ a :: ls)) by left.
    destruct (decide (a ∈ ls)); [| reflexivity].
    destruct (h !! a); cbn; [now rewrite Hf | reflexivity].
  - rewrite list_lookup_alter_ne by congruence.
    destruct (decide (l ∈ ls)) as [Hin | Hin].
    + rewrite decide_True by now right. reflexivity.
    + rewrite decide_False; [reflexivity |]. now intros [? | ?]%elem_of_cons.
Qed.

(** Applied twice, a function that undoes itself leaves the objects. *)
Lemma foldl_alter_involutive {A} (f : A → A) (ls : list nat) :
  (∀ a, f (f a) = a) →
  ∀ h : list A, foldl (λ h l, alter f l h) (foldl (λ h l, alter f l h) h ls) ls = h.
Proof.
  intros Hf. induction ls as [|a ls IH]; intros h; [reflexivity |].
  cbn [foldl].
  assert (Hcomm : ∀ ls' (h' : list A), foldl (λ h l, alter f l h) (alter f a h') ls' =
                            alter f a (foldl (λ h l, alter f l h) h' ls')).
  { induction ls' as [|b ls' IH']; intros h'; [reflexivity |].
    cbn [foldl]. rewrite <- IH'. f_equal.
    destruct (decide (a = b)) as [-> | Hne]; [reflexivity |].
    apply list_eq. intros i.
    destruct (decide (i = a)) as [Ha | Ha], (decide (i = b)) as [Hb | Hb];
      subst; try congruence;
      repeat (rewrite list_lookup_alter_eq || rewrite list_lookup_alter_ne by congruence);
      reflexivity. }
  rewrite !Hcomm, IH.
  apply list_eq. intros i. destruct (decide (i = a)) as [-> | Hne].
  - rewrite !list_lookup_alter_eq. destruct (h !! a); cbn; [now rewrite Hf | reflexivity].
  - now rewrite !list_lookup_alter_ne by congruence.
Qed.

(** [_updateTrack] leaves the [kind] of every track. *)
Lemma updated_kind enabled (ls : list nat) : ∀ (h : list MediaStreamTrack.t) l,
  MediaStreamTrack.kind <$> foldl (λ h l, alter (updated enabled) l h) h ls !! l =
  MediaStreamTrack.kind <$> h !! l.
Proof.
  induction ls as [|a ls IH]; intros h l; [reflexivity |].
  cbn [foldl]. rewrite IH.
  destruct (decide (l = a)) as [-> | Hne].
  - rewrite list_lookup_alter_eq. now destruct (h !! a).
  - now rewrite list_lookup_alter_ne by congruence.
Qed.

Lemma tracks_of_kind_run kind stream h :
  tracks_of_kind kind stream h =
  (Normal (filter (λ track, MediaStreamTrack.kind <$> h !! track = Some kind) stream), h).
Proof. reflexivity. Qed.

(** The run of [_updateMediaStreamTracks] for the kinds the six exported
    functions pass. *)
Lemma _updateMediaStreamTracks_run streamIsValid tracks kind enabled h :
  streamIsValid (Some tracks) = true →
  (∀ l, l ∈ tracks → l < length h) →
  kind = "audio" ∨ kind = "video" →
  _updateMediaStreamTracks streamIsValid (Some tracks) (Some kind) enabled h =
  (Normal Undefined,
   foldl (λ h l, alter (updated enabled) l h) h
         (filter (λ track, MediaStreamTrack.kind <$> h !! track = Some kind) tracks)).
Proof.
  intros Hvalid Hin Hkind. unfold _updateMediaStreamTracks. rewrite Hvalid. cbn [negb].
  assert (Hsub : ∀ l, l ∈ filter (λ track, MediaStreamTrack.kind <$> h !! track = Some kind)
                            tracks → l < length h).
  { intros l Hl. apply Hin. now apply list_elem_of_filter in Hl as [_ Hl]. }
  destruct Hkind as [-> | ->];
    rewrite T_bind_run, tracks_of_kind_run, T_bind_run, forEach_updateTrack_run by exact Hsub;
    reflexivity.
Qed.

(** X13.  On a valid stream whose tracks exist, [enableAudioTracks] and
    [disableAudioTracks] set [enabled] to [true] and to [false] on every
    audio track of the stream, and [enableVideoTracks] and
    [disableVideoTracks] do so on every video track; the [kind] of the track
    stays, every other track of the stream and every track of another
    stream is left as it is, and the result is [undefined]. *)
Theorem set_tracks_enabled streamIsValid (tracks : list nat) (h : list MediaStreamTrack.t) :
  streamIsValid (Some tracks) = true →
  (∀ l, l ∈ tracks → l < length h) →
  let set kind b :=
    (Normal Undefined,
     imap (λ l t,
             if bool_decide (l ∈ tracks ∧ MediaStreamTrack.kind t = kind)
             then {| MediaStreamTrack.kind := kind; MediaStreamTrack.enabled := b |}
             else t) h) in
  enableAudioTracks streamIsValid (Some tracks) h = set "audio" true ∧
  disableAudioTracks streamIsValid (Some tracks) h = set "audio" false ∧
  enableVideoTracks streamIsValid (Some tracks) h = set "video" true ∧
  disableVideoTracks streamIsValid (Some tracks) h = set "video" false.
Proof.
  intros Hvalid Hin.
  assert (Hset : ∀ kind b, kind = "audio" ∨ kind = "video" →
            _updateMediaStreamTracks streamIsValid (Some tracks) (Some kind) (Some b) h =
            (Normal Undefined,
             imap (λ l t,
                     if bool_decide (l ∈ tracks ∧ MediaStreamTrack.kind t = kind)
                     then {| MediaStreamTrack.kind := kind; MediaStreamTrack.enabled := b |}
                     else t) h)).
  { intros kind b Hkind.
    rewrite (_updateMediaStreamTracks_run _ _ _ _ _ Hvalid Hin Hkind). f_equal.
    apply list_eq. intros l.
    rewrite foldl_alter_idempotent by reflexivity.
    rewrite list_lookup_imap.
    destruct (h !! l) as [t |] eqn:Ht; cbn; [| now destruct (decide _)].
    destruct (decide (l ∈ filter _ tracks)) as [Hl | Hl].
    - apply list_elem_of_filter in Hl as [Hk Hl]. rewrite Ht in Hk. injection Hk as Hk.
      rewrite bool_decide_true by auto. unfold updated. now rewrite Hk.
    - rewrite bool_decide_false; [reflexivity |]. intros [Hl' Hk]. apply Hl.
      apply list_elem_of_filter. split; [| exact Hl']. rewrite Ht. cbn. now rewrite Hk. }
  cbv zeta. repeat split; apply Hset; auto.
Qed.

Lemma set_tracks_enabled_witness :
  is_stream (Some [0; 1; 2]) = true ∧
  (∀ l, l ∈ [0; 1; 2] → l < length three_tracks) ∧
  disableAudioTracks is_stream (Some [0; 1; 2]) three_tracks =
    (Normal Undefined,
     [ {| MediaStreamTrack.kind := "audio"; MediaStreamTrack.enabled := false |};
       {| MediaStreamTrack.kind := "audio"; MediaStreamTrack.enabled := false |};
       {| MediaStreamTrack.kind := "video"; MediaStreamTrack.enabled := true |} ]).
Proof.
  assert (Hin : ∀ l, l ∈ [0; 1; 2] → l < length three_tracks).
  { intros l Hl. repeat (apply elem_of_cons in Hl as [-> | Hl]); cbn; try lia.
    inversion Hl. }
  split; [reflexivity |]. split; [exact Hin |].
  destruct (set_tracks_enabled is_stream [0; 1; 2] three_tracks eq_refl Hin)
    as (_ & Hdisable & _).
  rewrite Hdisable. reflexivity.
Defined.

(** X14.  [toggleAudioTracks] and [toggleVideoTracks] undo themselves: on a
    valid stream whose tracks exist a second call gives back every track as
    it was before the first. *)
Theorem toggle_tracks_twice streamIsValid (tracks : list nat) (h : list MediaStreamTrack.t) :
  streamIsValid (Some tracks) = true →
  (∀ l, l ∈ tracks → l < length h) →
  (∃ h', toggleAudioTracks streamIsValid (Some tracks) h = (Normal Undefined, h') ∧
         toggleAudioTracks streamIsValid (Some tracks) h' = (Normal Undefined, h)) ∧
  (∃ h', toggleVideoTracks streamIsValid (Some tracks) h = (Normal Undefined, h') ∧
         toggleVideoTracks streamIsValid (Some tracks) h' = (Normal Undefined, h)).
Proof.
  intros Hvalid Hin.
  assert (Htoggle : ∀ kind, kind = "audio" ∨ kind = "video" →
            ∃ h', _updateMediaStreamTracks streamIsValid (Some tracks) (Some kind) None h =
                    (Normal Undefined, h') ∧
                  _updateMediaStreamTracks streamIsValid (Some tracks) (Some kind) None h' =
                    (Normal Undefined, h)).
  { intros kind Hkind.
    rewrite (_updateMediaStreamTracks_run _ _ _ _ _ Hvalid Hin Hkind).
    eexists. split; [reflexivity |].
    set (ls := filter (λ track, MediaStreamTrack.kind <$> h !! track = Some kind) tracks).
    set (h' := foldl (λ h l, alter (updated None) l h) h ls).
    assert (Hkinds : ∀ l, MediaStreamTrack.kind <$> h' !! l = MediaStreamTrack.kind <$> h !! l)
      by (intros l; apply updated_kind).
    rewrite _updateMediaStreamTracks_run; [| exact Hvalid | | exact Hkind].
    2:{ intros l Hl. unfold h'. rewrite foldl_alter_length. now apply Hin. }
    f_equal.
    assert (Hls : filter (λ track, MediaStreamTrack.kind <$> h' !! track = Some kind) tracks
                  = ls).
    { unfold ls. apply list_filter_iff. intros l. now rewrite Hkinds. }
    rewrite Hls. apply foldl_alter_involutive.
    intros [k e]. unfold updated. cbn. now rewrite negb_involutive. }
  split; apply Htoggle; auto.
Qed.

Lemma toggle_tracks_twice_witness :
  is_stream (Some [0; 1; 2]) = true ∧
  (∀ l, l ∈ [0; 1; 2] → l < length three_tracks) ∧
  ∃ h', toggleAudioTracks is_stream (Some [0; 1; 2]) three_tracks = (Normal Undefined, h') ∧
        h' !! 1 = Some {| MediaStreamTrack.kind := "audio"; MediaStreamTrack.enabled := true |} ∧
        toggleAudioTracks is_stream (Some [0; 1; 2]) h' = (Normal Undefined, three_tracks).
Proof.
  assert (Hin : ∀ l, l ∈ [0; 1; 2] → l < length three_tracks).
  { intros l Hl. repeat (apply elem_of_cons in Hl as [-> | Hl]); cbn; try lia.
    inversion Hl. }
  split; [reflexivity |]. split; [exact Hin |].
  destruct (toggle_tracks_twice is_stream [0; 1; 2] three_tracks eq_refl Hin)
    as ((h' & H1 & H2) & _).
  exists h'. split; [exact H1 |]. split; [| exact H2].
  vm_compute in H1. injection H1 as <-. reflexivity.
Defined.

(** X15.  On a stream that is not valid each of the six functions returns
    [null] and leaves every track as it is. *)
Theorem invalid_stream_is_left streamIsValid stream (h : list MediaStreamTrack.t) :
  streamIsValid stream = false →
  Forall (λ f : option (list nat) → T value, f stream h = (Normal Null, h))
    [enableAudioTracks streamIsValid; disableAudioTracks streamIsValid;
     toggleAudioTracks streamIsValid; enableVideoTracks streamIsValid;
     disableVideoTracks streamIsValid; toggleVideoTracks streamIsValid].
Proof.
  intros Hvalid.
  repeat constructor;
    unfold enableAudioTracks, disableAudioTracks, toggleAudioTracks, enableVideoTracks,
      disableVideoTracks, toggleVideoTracks, _updateMediaStreamTracks;
    now rewrite Hvalid.
Qed.

Lemma invalid_stream_is_left_witness :
  is_stream None = false ∧
  toggleVideoTracks is_stream None three_tracks = (Normal Null, three_tracks).
Proof.
  split; [reflexivity |].
  pose proof (invalid_stream_is_left is_stream None three_tracks eq_refl) as H.
  apply Forall_cons in H as [_ H]. apply Forall_cons in H as [_ H].
  apply Forall_cons in H as [_ H]. apply Forall_cons in H as [_ H].
  apply Forall_cons in H as [_ H]. apply Forall_cons in H as [H _]. exact H.
Defined.
